(** * Image upload and gallery subsystem of the jewelry admin console

    A shallow embedding of the client-side upload queue (the [ImageUpload]
    component in its two variants), of the gallery manager ([ImageGallery])
    with the callbacks its owner [ImageManagementModal] hands to it, and of
    the authenticated request gateway ([AuthService.apiRequest]).

    Conventions of the embedding.
    - JavaScript numbers that the code only counts or compares (sizes,
      counts, indices, HTTP status codes) are integers, [Z].
    - An object compared with [===] (a [File]) carries an explicit identity.
    - Every handler is a computation in a small state, exception and trace
      monad: React state is threaded explicitly, a [throw] is a rejected
      result, and every call that leaves the component (a request through
      the gateway, an XHR transfer, a callback of the owner, a timer) is
      recorded in the trace in program order.
    - Functional state updates ([setUploads(prev => ...)]) are applied in the
      order in which they are issued, which is the order React applies queued
      updaters in.
    - What the network answers is an input of the model: each handler that
      awaits a network operation takes the settled outcome of that operation
      as an argument. *)

From Stdlib Require Import ZArith String.
From stdpp Require Import base list strings gmap.

Set Warnings "-register-all".
Local Open Scope string_scope.
Local Open Scope list_scope.
Local Open Scope Z_scope.

(** ** JSON values as the code sees them *)

Inductive Json :=
| JNull
| JBool (b : bool)
| JNum (n : Z)
| JStr (s : string)
| JArr (items : list Json)
| JObj (fields : gmap string Json).

(** JavaScript truthiness of a parsed JSON value. *)
Definition truthy (v : Json) : bool :=
  match v with
  | JNull => false
  | JBool b => b
  | JNum n => negb (n =? 0)
  | JStr s => negb (String.eqb s "")
  | JArr _ => true
  | JObj _ => true
  end.

(** Truthiness of a possibly [undefined] value. *)
Definition truthy_opt (v : option Json) : bool :=
  match v with
  | Some j => truthy j
  | None => false
  end.

(** Property read [v.key] on a value that is not [null]: own properties of an
    object; [undefined] ([None]) on primitives and for the keys used here on
    arrays. *)
Definition get_field (key : string) (v : Json) : option Json :=
  match v with
  | JObj fields => fields !! key
  | _ => None
  end.

(** ** Error messages

    The code builds its messages with template strings; the embedding keeps
    the parts of each template instead of rendering them. *)

Inductive Message :=
| MsgText (s : string)
| MsgHttp (status : Z) (statusText : string)
    (* `HTTP ${response.status}: ${response.statusText}` *)
| MsgOfJson (v : Json)
    (* a truthy non-string [message] field, coerced by [new Error] *)
| MsgJsonSyntax
    (* the SyntaxError of [response.json()] on a body that is not JSON *)
| MsgTypeError
    (* destructuring [null] *)
| MsgFileType (type : string) (allowed : list string)
    (* `File type ${file.type} is not supported. Allowed types: ...` *)
| MsgFileSize (size maxSize : Z)
    (* `File size ...MB exceeds maximum size of ...MB` *)
| MsgMaxFiles (maxFiles : Z)
    (* `Cannot upload more than ${maxFiles} images per product` *)
| MsgUploadStatus (status : Z)
    (* `Upload failed with status ${xhr.status}` *)
| MsgS3Status (status : Z) (responseText : string).
    (* `S3 upload failed with status ${xhr.status}: ${xhr.responseText}` *)

(** [String(v)] is the empty string: what [new Error(v).message] is then. *)
Fixpoint blankJson (v : Json) : bool :=
  match v with
  | JStr s => String.eqb s ""
  | JArr [] => true
  | JArr [JNull] => true
  | JArr [x] => blankJson x
  | _ => false
  end.

(** A message that is the empty string, the one falsy string. *)
Definition blank (m : Message) : bool :=
  match m with
  | MsgText s => String.eqb s ""
  | MsgOfJson v => blankJson v
  | _ => false
  end.

(** ** HTTP responses *)

Module Http.

Record Response := {
  status : Z;
  statusText : string;
  contentType : option string;   (* response.headers.get('content-type') *)
  bodyText : string;             (* what response.text() resolves to *)
  bodyJson : option Json         (* the body parsed as JSON; None when the
                                    parse throws a SyntaxError *)
}.

(** [response.ok] *)
Definition ok (r : Response) : bool :=
  (200 <=? status r) && (status r <=? 299).

(** What [fetch] settles to: a response, or a rejection (network failure)
    whose message the browser chooses. *)
Inductive FetchOutcome :=
| Responded (r : Response)
| Failed (reason : string).

End Http.

(** [haystack.includes(needle)] *)
Definition includes (needle haystack : string) : bool :=
  match String.index 0 needle haystack with
  | Some _ => true
  | None => false
  end.

(** ** Files, images, requests and the trace *)

Record File := {
  ref : nat;           (* object identity: what [===] compares *)
  name : string;
  type : string;
  size : Z
}.

Record ProductImage := {
  id : string;
  product_id : string;
  image_url : string;
  is_main : bool;
  display_order : Z;
  content_type : option string;
  file_size : option Z;
  created_at : string;
  updated_at : string
}.

Inductive Method := GET | POST | PUT | DELETE.

Inductive ImageType := main | gallery.

(** The endpoints of section 6 of the specification, relative to the API
    root, with their path and query parameters. *)
Inductive Endpoint :=
| GenerateUploadUrl (productId : string)
| GenerateUploadUrlQuery (productId : string) (contentTypeParam : string)
    (productIdParam : string) (typeParam : ImageType)
| ConfirmUpload (productId : string)
| ImagesOf (productId : string)
| ImageOf (productId imageId : string)
| Reorder (productId : string).

Inductive Body :=
| NoBody
| NegotiateBody (filename contentType : string)
| ConfirmBody (imageKey : option Json) (isMain : bool)
| OrderBody (imageOrder : list string).

Record Request := {
  method : Method;
  endpoint : Endpoint;
  body : Body
}.

Inductive Event :=
| EvFetch (r : Request)                 (* fetch issued by the gateway *)
| EvLogout                              (* AuthService.logout() *)
| EvXhrPut (url : option Json) (contentTypeHeader : string) (f : File)
    (timeout : option Z)                (* xhr.open('PUT', url); xhr.send(f) *)
| EvXhrDone (f : File) (fulfilled : bool)
                                        (* the promise around the XHR settled *)
| EvUploadComplete (image : Json)       (* onUploadComplete(image) *)
| EvUploadError (m : Message)           (* onUploadError(m) *)
| EvImagesChange (images : list ProductImage)
                                        (* the modal's own onImagesChange?.() *)
| EvSetTimeout (ms : Z) (f : File)      (* setTimeout(remove f's task, ms) *)
| EvSleep (ms : Z).                     (* await of a bare setTimeout *)

(** ** The monad of handlers *)

Inductive Result (A : Type) :=
| Resolved (a : A)
| Rejected (m : Message).
Arguments Resolved {A} a.
Arguments Rejected {A} m.

Record Run (S A : Type) := MkRun {
  res : Result A;
  st : S;
  trace : list Event
}.
Arguments MkRun {S A} res st trace.
Arguments res {S A} r.
Arguments st {S A} r.
Arguments trace {S A} r.

Definition M (S A : Type) : Type := S → Run S A.

Section Monad.
Context {S : Type}.

Definition ret {A} (a : A) : M S A := λ s, MkRun (Resolved a) s [].

Definition bind {A B} (c : M S A) (k : A → M S B) : M S B := λ s,
  let r := c s in
  match res r with
  | Resolved a =>
      let r' := k a (st r) in
      MkRun (res r') (st r') (trace r ++ trace r')
  | Rejected m => MkRun (Rejected m) (st r) (trace r)
  end.

Definition throw {A} (m : Message) : M S A := λ s, MkRun (Rejected m) s [].

(** [try { c } catch (error) { h error }] *)
Definition try_catch {A} (c : M S A) (h : Message → M S A) : M S A := λ s,
  let r := c s in
  match res r with
  | Resolved a => r
  | Rejected m =>
      let r' := h m (st r) in
      MkRun (res r') (st r') (trace r ++ trace r')
  end.

Definition emit (e : Event) : M S unit := λ s, MkRun (Resolved tt) s [e].

Definition modify (f : S → S) : M S unit := λ s, MkRun (Resolved tt) (f s) [].

Definition gets {A} (f : S → A) : M S A := λ s, MkRun (Resolved (f s)) s [].

End Monad.

#[global] Instance M_ret {S} : MRet (M S) := λ A, @ret S A.
#[global] Instance M_bind {S} : MBind (M S) := λ A B k c, @bind S A B c k.

(** ** The authenticated request gateway: [AuthService.apiRequest] *)

Module Gateway.
Import Http.

(** The message of the Error thrown for a response that is not [ok] and is
    not a 401: [errorData.message || errorMessage] when the body parses,
    [errorText || errorMessage] when parsing or the property read throws. *)
Definition errorMessage (r : Response) : Message :=
  let fallback := MsgHttp (status r) (statusText r) in
  let fromText :=
    if String.eqb (bodyText r) "" then fallback else MsgText (bodyText r) in
  match bodyJson r with
  | None => fromText
  | Some JNull => fromText
  | Some errorData =>
      match get_field "message" errorData with
      | Some (JStr s) => if truthy (JStr s) then MsgText s else fallback
      | Some v => if truthy v then MsgOfJson v else fallback
      | None => fallback
      end
  end.

(** [contentType && contentType.includes('application/json')] *)
Definition isJson (r : Response) : bool :=
  match contentType r with
  | Some ct => negb (String.eqb ct "") && includes "application/json" ct
  | None => false
  end.

Definition apiRequest {S} (req : Request) (out : FetchOutcome) : M S Json :=
  emit (EvFetch req) ;;
  match out with
  | Failed reason => throw (MsgText reason)
  | Responded response =>
      if negb (ok response) then
        if status response =? 401 then
          emit EvLogout ;;
          throw (MsgText "Authentication required")
        else
          throw (errorMessage response)
      else if isJson response then
        match bodyJson response with
        | Some v => mret v
        | None => throw MsgJsonSyntax
        end
      else
        throw (MsgText "Invalid JSON response from server")
  end.

End Gateway.


(** ** The upload queue: [ImageUpload], the variant with two transports *)

Module Upload.

Inductive Status := Uploading | Success | Error.

(** [UploadProgress]: one task of the queue. [imageKey] holds whatever the
    negotiation answered under that name, [None] when it is [undefined]. *)
Record UploadProgress := {
  file : File;
  progress : Z;
  status : Status;
  error : option Message;
  imageKey : option Json
}.

Record Props := {
  productId : string;
  maxFiles : Z;
  acceptedTypes : list string;
  maxSizeBytes : Z;
  currentImageCount : Z
}.

Definition DEFAULT_ACCEPTED_TYPES : list string :=
  ["image/jpeg"; "image/jpg"; "image/png"; "image/webp"].

Definition DEFAULT_MAX_SIZE : Z := 10 * 1024 * 1024.

(** The props left to their defaults. *)
Definition defaultProps (productId : string) : Props :=
  {| productId := productId;
     maxFiles := 10;
     acceptedTypes := DEFAULT_ACCEPTED_TYPES;
     maxSizeBytes := DEFAULT_MAX_SIZE;
     currentImageCount := 0 |}.

(** The component's [uploads] state. *)
Definition Uploads : Type := list UploadProgress.

(** [upload.file === file] *)
Definition sameFile (file : File) (upload : UploadProgress) : Prop :=
  ref upload.(Upload.file) = ref file.

#[global] Instance sameFile_dec file upload : Decision (sameFile file upload).
Proof. unfold sameFile. apply _. Defined.

Definition validateFile (p : Props) (file : File) : option Message :=
  if negb (bool_decide (type file ∈ acceptedTypes p)) then
    Some (MsgFileType (type file) (acceptedTypes p))
  else if size file >? maxSizeBytes p then
    Some (MsgFileSize (size file) (maxSizeBytes p))
  else None.

(** *** What the network does during one upload attempt *)

Record ProgressEvent := {
  lengthComputable : bool;
  loaded : Z;
  total : Z
}.

(** How the XHR of the local variant settles: [onload] or [onerror]; no
    timeout is set there, so none fires. Or the promise's executor throws
    before it reaches [xhr.send]: [xhr.open] throws a SyntaxError when
    [uploadUrl] does not parse as a URL, and the exception rejects the
    promise, with nothing sent. *)
Inductive XhrLocal :=
| LocalLoad (code : Z)
| LocalError
| LocalThrows (reason : string).

(** How the XHR of the direct-to-storage variant settles: [onload],
    [onerror] or [ontimeout]. *)
Inductive XhrS3 :=
| S3Load (code : Z) (responseText : string)
| S3Error
| S3Timeout.

Record Net (X : Type) := {
  negotiate : Http.FetchOutcome;
  progressEvents : list ProgressEvent;
  xhr : X;
  confirm : Http.FetchOutcome
}.
Arguments negotiate {X} n.
Arguments progressEvents {X} n.
Arguments xhr {X} n.
Arguments confirm {X} n.

(** [Math.round((progressEvent.loaded * 100) / progressEvent.total)], for a
    computable length ([total] is then positive): the nearest integer, a
    half rounded up. *)
Definition percent (e : ProgressEvent) : Z :=
  (2 * (loaded e * 100) + total e) / (2 * total e).

Definition setProgress (file : File) (pct : Z) (upload : UploadProgress) : UploadProgress :=
  if decide (sameFile file upload) then
    {| file := upload.(Upload.file); progress := pct; status := status upload;
       error := error upload; imageKey := imageKey upload |}
  else upload.

Definition setSuccess (file : File) (key : option Json) (upload : UploadProgress) : UploadProgress :=
  if decide (sameFile file upload) then
    {| file := upload.(Upload.file); progress := 100; status := Success;
       error := error upload; imageKey := key |}
  else upload.

Definition setError (file : File) (errorMessage : Message) (upload : UploadProgress) : UploadProgress :=
  if decide (sameFile file upload) then
    {| file := upload.(Upload.file); progress := progress upload; status := Error;
       error := Some errorMessage; imageKey := imageKey upload |}
  else upload.

Definition newUpload (file : File) : UploadProgress :=
  {| file := file; progress := 0; status := Uploading; error := None; imageKey := None |}.

(** The listener on [xhr.upload]'s progress events. *)
Definition onProgress (file : File) (e : ProgressEvent) : M Uploads unit :=
  if lengthComputable e then modify (fmap (setProgress file (percent e)))
  else mret tt.

Fixpoint onProgressAll (file : File) (es : list ProgressEvent) : M Uploads unit :=
  match es with
  | [] => mret tt
  | e :: es' => onProgress file e ;; onProgressAll file es'
  end.

(** [const { a, b } = response]: a TypeError on [null]. *)
Definition destructure (a b : string) (response : Json)
  : M Uploads (option Json * option Json) :=
  match response with
  | JNull => throw MsgTypeError
  | _ => mret (get_field a response, get_field b response)
  end.

(** [xhr.status >= 200 && xhr.status < 300] *)
Definition is2xx (code : Z) : bool := (200 <=? code) && (code <? 300).

(** [await uploadPromise]: the promise resolves on a 2xx [onload] and rejects
    otherwise. *)
Definition settle (file : File) (rejection : option Message) : M Uploads unit :=
  match rejection with
  | None => emit (EvXhrDone file true)
  | Some reason => emit (EvXhrDone file false) ;; throw reason
  end.

(** The handlers installed on the XHR: what they reject the promise with,
    [None] when they resolve it. *)
Definition rejectionLocal (x : XhrLocal) : option Message :=
  match x with
  | LocalLoad code =>
      if is2xx code then None else Some (MsgUploadStatus code)
  | LocalError => Some (MsgText "Upload failed")
  | LocalThrows reason => Some (MsgText reason)
  end.

(** Whether the executor of the local variant gets as far as [xhr.send]. *)
Definition sendsLocal (x : XhrLocal) : bool :=
  match x with
  | LocalThrows _ => false
  | _ => true
  end.

Definition rejectionS3 (x : XhrS3) : option Message :=
  match x with
  | S3Load code responseText =>
      if is2xx code then None else Some (MsgS3Status code responseText)
  | S3Error => Some (MsgText "S3 upload failed - network error")
  | S3Timeout => Some (MsgText "S3 upload failed - timeout")
  end.

(** Step 3 posts the key and the "set as primary" flag. *)
Definition confirmRequest (p : Props) (key : option Json) : Request :=
  {| method := POST;
     endpoint := ConfirmUpload (productId p);
     body := ConfirmBody key (currentImageCount p =? 0) |}.

(** Step 1 of the local transport. *)
Definition negotiateLocal (p : Props) (file : File) : Request :=
  {| method := POST;
     endpoint := GenerateUploadUrl (productId p);
     body := NegotiateBody (name file) (type file) |}.

(** Step 1 of the direct-to-storage transport; [file.type] goes through
    [encodeURIComponent] on its way into the query string. *)
Definition negotiateS3 (p : Props) (file : File) : Request :=
  let imageType := if currentImageCount p =? 0 then main else gallery in
  {| method := GET;
     endpoint := GenerateUploadUrlQuery (productId p) (type file)
                   (productId p) imageType;
     body := NoBody |}.

(** The three steps end the same way in both transports. *)
Definition confirmAndFinish (p : Props) (file : File) (key : option Json)
    (out : Http.FetchOutcome) : M Uploads unit :=
  confirmResponse ← Gateway.apiRequest (confirmRequest p key) out;
  modify (fmap (setSuccess file key)) ;;
  emit (EvUploadComplete confirmResponse) ;;
  emit (EvSetTimeout 3000 file).

Definition onCatch (file : File) (errorMessage : Message) : M Uploads unit :=
  modify (fmap (setError file errorMessage)) ;;
  emit (EvUploadError errorMessage).

Definition uploadFileLocal (p : Props) (file : File) (net : Net XhrLocal)
  : M Uploads unit :=
  match validateFile p file with
  | Some validationError => emit (EvUploadError validationError)
  | None =>
      modify (λ prev, prev ++ [newUpload file]) ;;
      try_catch
        (uploadResponse ← Gateway.apiRequest (negotiateLocal p file) (negotiate net);
         '(uploadUrl, key) ← destructure "uploadUrl" "imageKey" uploadResponse;
         if sendsLocal (xhr net) then
           emit (EvXhrPut uploadUrl (type file) file None) ;;
           onProgressAll file (progressEvents net) ;;
           settle file (rejectionLocal (xhr net)) ;;
           confirmAndFinish p file key (confirm net)
         else
           settle file (rejectionLocal (xhr net)) ;;
           confirmAndFinish p file key (confirm net))
        (onCatch file)
  end.

Definition uploadFileS3 (p : Props) (file : File) (net : Net XhrS3)
  : M Uploads unit :=
  match validateFile p file with
  | Some validationError => emit (EvUploadError validationError)
  | None =>
      modify (λ prev, prev ++ [newUpload file]) ;;
      try_catch
        (uploadUrlResponse ← Gateway.apiRequest (negotiateS3 p file) (negotiate net);
         '(upload_url, key) ← destructure "upload_url" "key" uploadUrlResponse;
         (if negb (truthy_opt upload_url) || negb (truthy_opt key) then
            throw (MsgText "Failed to get upload URL from server")
          else mret tt) ;;
         emit (EvXhrPut upload_url (type file) file (Some 120000)) ;;
         onProgressAll file (progressEvents net) ;;
         settle file (rejectionS3 (xhr net)) ;;
         confirmAndFinish p file key (confirm net))
        (onCatch file)
  end.

(** The outcome space of the transfer depends on the transport. *)
Definition Xhr (isProduction : bool) : Type :=
  if isProduction then XhrS3 else XhrLocal.

(** [isProduction] is read once from the environment when the module loads. *)
Definition uploadFile (isProduction : bool) (p : Props) (file : File)
  : Net (Xhr isProduction) → M Uploads unit :=
  match isProduction as b return Net (Xhr b) → M Uploads unit with
  | true => uploadFileS3 p file
  | false => uploadFileLocal p file
  end.

(** The [for ... of] loop of [handleFiles]: each file with what the network
    will answer to its attempt. *)
Fixpoint uploadEach (isProduction : bool) (p : Props)
    (batch : list (File * Net (Xhr isProduction))) : M Uploads unit :=
  match batch with
  | [] => mret tt
  | (file, net) :: rest =>
      uploadFile isProduction p file net ;;
      emit (EvSleep 500) ;;
      uploadEach isProduction p rest
  end.

(** [handleFiles] closes over the props and over [uploadFile] of the render
    that created it: one [Props] value serves the whole batch. *)
Definition handleFiles (isProduction : bool) (p : Props)
    (batch : list (File * Net (Xhr isProduction))) : M Uploads unit :=
  uploadsLength ← gets (λ uploads : Uploads, Z.of_nat (length uploads));
  if uploadsLength + Z.of_nat (length batch) + currentImageCount p >? maxFiles p then
    emit (EvUploadError (MsgMaxFiles (maxFiles p)))
  else
    uploadEach isProduction p batch.

Definition removeUpload (file : File) : M Uploads unit :=
  modify (filter (λ upload, ¬ sameFile file upload)).

(** The callback of the three-second timer set after a success. *)
Definition onCleanupTimer (file : File) : M Uploads unit :=
  modify (filter (λ upload, ¬ sameFile file upload)).

Definition retryUpload (isProduction : bool) (p : Props) (file : File)
    (net : Net (Xhr isProduction)) : M Uploads unit :=
  modify (filter (λ upload, ¬ sameFile file upload)) ;;
  uploadFile isProduction p file net.

End Upload.

(** ** The upload queue: [ImageUpload], the earlier single-transport variant

    Its [handleFiles] starts the uploads with [forEach] and awaits none of
    them: what runs inside [handleFiles] is, for each file it keeps, in turn,
    the part of [uploadFile] before its first [await]. *)

Module Legacy.
Import Upload.

(** [array.slice(0, end)] *)
Definition slice0 {A} (endIndex : Z) (l : list A) : list A :=
  let len := Z.of_nat (length l) in
  let k := if endIndex <? 0 then Z.max (len + endIndex) 0 else Z.min endIndex len in
  take (Z.to_nat k) l.

(** [uploadFile] up to [await apiRequest(...)]: validation, the new task,
    and the negotiation request handed to [fetch]. *)
Definition uploadFileStart (p : Props) (file : File) : M Uploads unit :=
  match validateFile p file with
  | Some validationError => emit (EvUploadError validationError)
  | None =>
      modify (λ prev, prev ++ [newUpload file]) ;;
      emit (EvFetch (negotiateLocal p file))
  end.

Fixpoint forEachStart (p : Props) (files : list File) : M Uploads unit :=
  match files with
  | [] => mret tt
  | file :: rest => uploadFileStart p file ;; forEachStart p rest
  end.

Definition filesToUpload (p : Props) (uploads : Uploads) (fileArray : list File)
  : list File :=
  let remainingSlots := maxFiles p - Z.of_nat (length uploads) in
  slice0 remainingSlots fileArray.

Definition handleFiles (p : Props) (fileArray : list File) : M Uploads unit :=
  toUpload ← gets (λ uploads, filesToUpload p uploads fileArray);
  forEachStart p toUpload.

End Legacy.

(** ** The gallery manager: [ImageGallery] inside [ImageManagementModal] *)

Module Gallery.

(** The state the handlers read and write: [images] and [error] belong to
    the modal ([images] reaches the gallery as a prop and is replaced through
    [onImagesChange]); the rest is the gallery's own and lives as long as
    the gallery is on the page, which the modal's render decides
    ([afterRender] below). An entry of the draft is [None] where JavaScript
    holds [undefined]. *)
Record State := {
  images : list ProductImage;
  error : option Message;
  isReordering : bool;
  reorderImages : list (option ProductImage);
  isDeleting : option string
}.

Definition setImages (v : list ProductImage) (s : State) : State :=
  {| images := v; error := error s; isReordering := isReordering s;
     reorderImages := reorderImages s; isDeleting := isDeleting s |}.

Definition setError (v : option Message) (s : State) : State :=
  {| images := images s; error := v; isReordering := isReordering s;
     reorderImages := reorderImages s; isDeleting := isDeleting s |}.

Definition setIsReordering (v : bool) (s : State) : State :=
  {| images := images s; error := error s; isReordering := v;
     reorderImages := reorderImages s; isDeleting := isDeleting s |}.

Definition setReorderImages (v : list (option ProductImage)) (s : State) : State :=
  {| images := images s; error := error s; isReordering := isReordering s;
     reorderImages := v; isDeleting := isDeleting s |}.

Definition setIsDeleting (v : option string) (s : State) : State :=
  {| images := images s; error := error s; isReordering := isReordering s;
     reorderImages := reorderImages s; isDeleting := v |}.

(** The modal's [handleImagesChange], passed as [onImagesChange]. *)
Definition onImagesChange (updatedImages : list ProductImage) : M State unit :=
  modify (setImages updatedImages) ;;
  emit (EvImagesChange updatedImages).

(** The modal's [handleError], passed as [onError]: it sets the modal's
    error, and the render that follows acts on it ([afterRender]). *)
Definition onError (errorMessage : string) : M State unit :=
  modify (setError (Some (MsgText errorMessage))).

(** [{ ...img, is_main: v }] *)
Definition withIsMain (v : bool) (img : ProductImage) : ProductImage :=
  {| id := id img; product_id := product_id img; image_url := image_url img;
     is_main := v; display_order := display_order img;
     content_type := content_type img; file_size := file_size img;
     created_at := created_at img; updated_at := updated_at img |}.

(** [{ ...img, display_order: v }] *)
Definition withDisplayOrder (v : Z) (img : ProductImage) : ProductImage :=
  {| id := id img; product_id := product_id img; image_url := image_url img;
     is_main := is_main img; display_order := v;
     content_type := content_type img; file_size := file_size img;
     created_at := created_at img; updated_at := updated_at img |}.

(** [images] in the body of [handleSetPrimary] is the prop its render saw,
    read here from the state: the two are the same list unless another
    mutation settles while this request is in flight. *)
Definition handleSetPrimary (productId imageId : string)
    (out : Http.FetchOutcome) : M State unit :=
  try_catch
    (Gateway.apiRequest
       {| method := PUT; endpoint := ImageOf productId imageId; body := NoBody |}
       out ;;
     imgs ← gets images;
     let updatedImages :=
       (λ img, withIsMain (bool_decide (id img = imageId)) img) <$> imgs in
     onImagesChange updatedImages)
    (λ _, onError "Failed to set primary image").

(** [images] in the body of [handleDelete] is the prop of the render that
    created the handler: [captured], the list as it was when the delete was
    confirmed, still used when the request has settled. *)
Definition handleDelete (productId imageId : string)
    (captured : list ProductImage) (out : Http.FetchOutcome) : M State unit :=
  modify (setIsDeleting (Some imageId)) ;;
  try_catch
    (Gateway.apiRequest
       {| method := DELETE; endpoint := ImageOf productId imageId; body := NoBody |}
       out ;;
     let updatedImages := filter (λ img, id img ≠ imageId) captured in
     onImagesChange updatedImages)
    (λ _, onError "Failed to delete image") ;;
  modify (setIsDeleting None).

Definition handleStartReorder : M State unit :=
  imgs ← gets images;
  modify (setReorderImages (Some <$> imgs)) ;;
  modify (setIsReordering true).

Definition handleCancelReorder : M State unit :=
  modify (setReorderImages []) ;;
  modify (setIsReordering false).

(** [draft.map(f)] for an [f] that reads a property of its argument: a
    TypeError at the first [undefined] entry. *)
Definition definedEntries (draft : list (option ProductImage))
  : M State (list ProductImage) :=
  match mapM (λ entry, entry) draft with
  | Some imgs => mret imgs
  | None => throw MsgTypeError
  end.

Definition handleSaveReorder (productId : string)
    (out : Http.FetchOutcome) : M State unit :=
  try_catch
    (draft ← gets reorderImages;
     imgs ← definedEntries draft;
     let imageOrder := id <$> imgs in
     Gateway.apiRequest
       {| method := PUT; endpoint := Reorder productId; body := OrderBody imageOrder |}
       out ;;
     let updatedImages :=
       imap (λ index img, withDisplayOrder (Z.of_nat index + 1) img) imgs in
     onImagesChange updatedImages ;;
     modify (setIsReordering false))
    (λ _, onError "Failed to reorder images").

(** The start index [splice] works from: a negative index counts from the
    end, and the result is clamped to the array. *)
Definition spliceStart {A} (l : list A) (start : Z) : nat :=
  let len := Z.of_nat (length l) in
  Z.to_nat (if start <? 0 then Z.max (len + start) 0 else Z.min start len).

(** [const [moved] = l.splice(start, 1)]: the array left and the element
    taken out, [None] when nothing was at [start]. *)
Definition spliceOut {A} (l : list A) (start : Z) : list A * option A :=
  let s := spliceStart l start in
  (take s l ++ drop (S s) l, l !! s).

(** [l.splice(start, 0, x)] *)
Definition spliceIn {A} (l : list A) (start : Z) (x : A) : list A :=
  let s := spliceStart l start in
  take s l ++ x :: drop s l.

Definition moved (draft : list (option ProductImage)) (fromIndex toIndex : Z)
  : list (option ProductImage) :=
  let '(newImages, movedImage) := spliceOut draft fromIndex in
  spliceIn newImages toIndex (mjoin movedImage).

Definition moveImage (fromIndex toIndex : Z) : M State unit :=
  draft ← gets reorderImages;
  modify (setReorderImages (moved draft fromIndex toIndex)).

(** The [onDrop] handler of the tile at [index]: [parseInt] of the dragged
    text is an integer or [NaN] ([None]), and [splice] reads [NaN] as 0. *)
Definition onDrop (data : option Z) (index : nat) : M State unit :=
  gets isReordering ≫= λ reordering : bool,
    if reordering then moveImage (default 0 data) (Z.of_nat index)
    else mret tt.

(** [const displayImages = isReordering ? reorderImages : images] *)
Definition displayImages (s : State) : list (option ProductImage) :=
  if isReordering s then reorderImages s else Some <$> images s.

(** The keys of the tiles the gallery's render builds,
    [displayImages.map((image, index) => <div key={image.id} ...>)]: reading
    [id] of an [undefined] entry throws a TypeError, inside the render. *)
Definition tileKeys (s : State) : Result (list string) :=
  match mapM (λ entry, entry) (displayImages s) with
  | Some imgs => Resolved (id <$> imgs)
  | None => Rejected MsgTypeError
  end.

(** [error ? <the error panel> : ... <ImageGallery .../>] in the modal's
    render: a truthy error puts the error panel where the gallery was. *)
Definition errorShown (s : State) : bool :=
  match error s with
  | Some m => negb (blank m)
  | None => false
  end.

(** The modal's next render. With the error panel in its place the gallery
    leaves the tree and React drops its state: whenever it is put back (the
    panel's Retry reloads the list and clears the error) it starts from the
    initial values of its [useState] calls. *)
Definition afterRender (s : State) : State :=
  if errorShown s then
    {| images := images s; error := error s; isReordering := false;
       reorderImages := []; isDeleting := None |}
  else s.

End Gallery.

(** ** The session layer: [AuthService.verifyAuthentication]

    The profile request goes to [fetch] directly, not through [apiRequest];
    what it settles to is the input. *)

Module AuthService.

Record Verified := {
  isAuthenticated : bool;
  user : option Json
}.

Definition unauthenticated : Verified :=
  {| isAuthenticated := false; user := None |}.

(** [await fetch(...)]: a rejection is thrown. *)
Definition awaitFetch {S} (out : Http.FetchOutcome) : M S Http.Response :=
  match out with
  | Http.Responded r => mret r
  | Http.Failed reason => throw (MsgText reason)
  end.

(** [await response.json()] *)
Definition awaitJson {S} (r : Http.Response) : M S Json :=
  match Http.bodyJson r with
  | Some v => mret v
  | None => throw MsgJsonSyntax
  end.

(** [v.key]: a TypeError on [null]. *)
Definition readField {S} (key : string) (v : Json) : M S (option Json) :=
  match v with
  | JNull => throw MsgTypeError
  | _ => mret (get_field key v)
  end.

(** [role === 'admin'] *)
Definition isAdmin (role : option Json) : bool :=
  match role with
  | Some (JStr s) => String.eqb s "admin"
  | _ => false
  end.

Definition verifyAuthentication {S} (out : Http.FetchOutcome) : M S Verified :=
  try_catch
    (profileResponse ← awaitFetch out;
     if Http.ok profileResponse then
       userData ← awaitJson profileResponse;
       role ← readField "role" userData;
       if isAdmin role then
         mret {| isAuthenticated := true; user := Some userData |}
       else mret unauthenticated
     else mret unauthenticated)
    (λ _, mret unauthenticated).

End AuthService.

(** ** The session layer: [AuthService.loginWithGoogle]

    The promise it returns is settled by three callbacks: the listener for
    [message] events of the window, the one-second interval that watches
    the popup, and the five-minute timer. The model is the state those
    callbacks share and one function per callback. *)

Module LoginWithGoogle.

Record MessageEvent := {
  origin : string;
  data : option Json         (* event.data, None when undefined *)
}.

Record AuthResponse := {
  success : bool;
  user : Json;
  csrfToken : option Json
}.

Record Pending := {
  outcome : option (Result AuthResponse);  (* the promise; None while pending *)
  listening : bool;          (* handleMessage is registered on the window *)
  polling : bool;            (* the checkClosed interval is set *)
  closedHere : bool          (* popup.close() was called *)
}.

(** [resolve] and [reject]: the first call settles the promise, later calls
    do nothing. *)
Definition settle (x : Result AuthResponse) (s : Pending) : Pending :=
  match outcome s with
  | None => {| outcome := Some x; listening := listening s;
               polling := polling s; closedHere := closedHere s |}
  | Some _ => s
  end.

(** [window.removeEventListener('message', handleMessage)] *)
Definition removeListener (s : Pending) : Pending :=
  {| outcome := outcome s; listening := false;
     polling := polling s; closedHere := closedHere s |}.

(** [clearInterval(checkClosed)] *)
Definition clearPolling (s : Pending) : Pending :=
  {| outcome := outcome s; listening := listening s;
     polling := false; closedHere := closedHere s |}.

(** [popup.close()] *)
Definition closePopup (s : Pending) : Pending :=
  {| outcome := outcome s; listening := listening s;
     polling := polling s; closedHere := true |}.

(** The state when the executor returns: [window.open] gave a popup or
    [null]. *)
Definition start (popupOpened : bool) : Pending :=
  if popupOpened then
    {| outcome := None; listening := true; polling := true; closedHere := false |}
  else
    {| outcome := Some (Rejected (MsgText
         "Could not open popup window. Please check if popups are blocked."));
       listening := false; polling := false; closedHere := false |}.

(** [typeof v === 'object'] for a truthy value. *)
Definition isObject (v : Json) : bool :=
  match v with
  | JObj _ | JArr _ => true
  | _ => false
  end.

(** [event.data && event.data.key] as a condition, and the value read. *)
Definition dataField (key : string) (d : option Json) : option Json :=
  match d with
  | Some v => if truthy v then get_field key v else None
  | None => None
  end.

(** The message of [new Error(v)]. *)
Definition errorOfJson (v : Json) : Message :=
  match v with
  | JStr s => MsgText s
  | _ => MsgOfJson v
  end.

Definition handleMessage (baseURL : string) (event : MessageEvent) (s : Pending)
  : Pending :=
  if negb (listening s) then s
  else
    let d := data event in
    if truthy_opt d && from_option isObject false d
       && truthy_opt (dataField "type" d) then s
    else if negb (String.eqb (origin event) baseURL) then s
    else
      match dataField "success" d, dataField "user" d with
      | Some ok, Some u =>
          if truthy ok && truthy u then
            if negb (AuthService.isAdmin (get_field "role" u)) then
              settle (Rejected (MsgText "Access denied. Admin privileges required."))
                (closePopup (removeListener s))
            else
              settle (Resolved {| success := true; user := u;
                                  csrfToken := dataField "csrfToken" d |})
                (removeListener (clearPolling s))
          else
            match dataField "error" d with
            | Some e =>
                if truthy e then
                  settle (Rejected (errorOfJson e)) (removeListener (clearPolling s))
                else s
            | None => s
            end
      | _, _ =>
          match dataField "error" d with
          | Some e =>
              if truthy e then
                settle (Rejected (errorOfJson e)) (removeListener (clearPolling s))
              else s
          | None => s
          end
      end.

(** One firing of the interval; [closedElsewhere]: the user or the backend
    closed the popup. *)
Definition checkClosed (closedElsewhere : bool) (s : Pending) : Pending :=
  if negb (polling s) then s
  else if closedHere s || closedElsewhere then
    settle (Rejected (MsgText "Authentication cancelled - popup was closed"))
      (removeListener (clearPolling s))
  else s.

(** The five-minute timer. *)
Definition onTimeout (s : Pending) : Pending :=
  settle (Rejected (MsgText "Authentication timeout"))
    (removeListener (clearPolling s)).

(** What can happen while the promise is out. *)
Inductive Happening :=
| Posted (event : MessageEvent)
| Tick (closedElsewhere : bool)
| TimedOut.

Definition step (baseURL : string) (s : Pending) (h : Happening) : Pending :=
  match h with
  | Posted event => handleMessage baseURL event s
  | Tick closedElsewhere => checkClosed closedElsewhere s
  | TimedOut => onTimeout s
  end.

Definition run (baseURL : string) (hs : list Happening) (s : Pending) : Pending :=
  foldl (step baseURL) s hs.

End LoginWithGoogle.

(** ** The session layer: [AuthProvider] *)

Module AuthProvider.

Record State := {
  user : option Json;
  isLoading : bool
}.

Definition setUser (v : option Json) (s : State) : State :=
  {| user := v; isLoading := isLoading s |}.

Definition setIsLoading (v : bool) (s : State) : State :=
  {| user := user s; isLoading := v |}.

(** [useState(null)], [useState(true)] *)
Definition initial : State := {| user := None; isLoading := true |}.

(** [isAuthenticated: !!user] *)
Definition isAuthenticated (s : State) : bool := truthy_opt (user s).

(** The effect run on mount. *)
Definition checkAuthentication (out : Http.FetchOutcome) : M State unit :=
  try_catch
    (verified ← AuthService.verifyAuthentication out;
     if AuthService.isAuthenticated verified && truthy_opt (AuthService.user verified)
     then modify (setUser (AuthService.user verified))
     else modify (setUser None))
    (λ _, modify (setUser None)) ;;
  modify (setIsLoading false).

(** [login], given what [loginWithGoogle] settled to. *)
Definition login (settled : Result LoginWithGoogle.AuthResponse) : M State unit :=
  modify (setIsLoading true) ;;
  match settled with
  | Resolved response =>
      modify (setUser (Some (LoginWithGoogle.user response))) ;;
      modify (setIsLoading false)
  | Rejected reason =>
      modify (setIsLoading false) ;;
      throw reason
  end.

End AuthProvider.

(** ** The modal: [ImageManagementModal] under [EditProductPage]

    The image list is kept here as the JSON values [apiRequest] and the
    upload hand over. [productImages] is the state of the page that owns the
    modal, which passes its setter as [onImagesChange]. *)

Module Modal.

Inductive Tab := GalleryTab | UploadTab.

Record State := {
  images : list Json;
  isLoading : bool;
  error : option Message;
  activeTab : Tab;
  productImages : list Json
}.

Definition setImages (v : list Json) (s : State) : State :=
  {| images := v; isLoading := isLoading s; error := error s;
     activeTab := activeTab s; productImages := productImages s |}.

Definition setIsLoading (v : bool) (s : State) : State :=
  {| images := images s; isLoading := v; error := error s;
     activeTab := activeTab s; productImages := productImages s |}.

Definition setError (v : option Message) (s : State) : State :=
  {| images := images s; isLoading := isLoading s; error := v;
     activeTab := activeTab s; productImages := productImages s |}.

Definition setActiveTab (v : Tab) (s : State) : State :=
  {| images := images s; isLoading := isLoading s; error := error s;
     activeTab := v; productImages := productImages s |}.

(** [onImagesChange?.(v)] with the page's [setProductImages]. *)
Definition setProductImages (v : list Json) (s : State) : State :=
  {| images := images s; isLoading := isLoading s; error := error s;
     activeTab := activeTab s; productImages := v |}.

(** [Array.isArray(imagesData) ? imagesData : []] *)
Definition safeImagesData (imagesData : Json) : list Json :=
  match imagesData with
  | JArr items => items
  | _ => []
  end.

Definition loadImages (productId : string) (out : Http.FetchOutcome) : M State unit :=
  modify (setIsLoading true) ;;
  modify (setError None) ;;
  try_catch
    (imagesData ← Gateway.apiRequest
       {| method := GET; endpoint := ImagesOf productId; body := NoBody |} out;
     modify (setImages (safeImagesData imagesData)) ;;
     modify (setProductImages (safeImagesData imagesData)))
    (λ _,
     modify (setError (Some (MsgText "Failed to load images"))) ;;
     modify (setImages []) ;;
     modify (setProductImages [])) ;;
  modify (setIsLoading false).

(** [handleUploadComplete] reads [images] of the render that created it:
    [captured] is that list. *)
Definition handleUploadComplete (captured : list Json) (newImage : Json)
  : M State unit :=
  let updatedImages := captured ++ [newImage] in
  modify (setImages updatedImages) ;;
  modify (setProductImages updatedImages) ;;
  modify (setActiveTab GalleryTab).

Definition handleUploadError (errorMessage : Message) : M State unit :=
  modify (setError (Some errorMessage)).

(** The callbacks an upload component calls, in the order of its trace; it
    holds the [onUploadComplete] and [onUploadError] it was rendered with. *)
Fixpoint deliver (captured : list Json) (t : list Event) : M State unit :=
  match t with
  | [] => mret tt
  | EvUploadComplete image :: t' =>
      handleUploadComplete captured image ;; deliver captured t'
  | EvUploadError m :: t' =>
      handleUploadError m ;; deliver captured t'
  | _ :: t' => deliver captured t'
  end.

End Modal.

(** * Vocabulary of the facts *)

(** ** Outcomes and traces *)

(** A result that is a value, and one that is a thrown Error. *)
Definition resolves {A} (r : Result A) : Prop := ∃ v, r = Resolved v.
Definition throws {A} (r : Result A) : Prop := ∃ m, r = Rejected m.

(** A 2xx response that carries a JSON body. *)
Definition jsonResponse (code : Z) (v : Json) : Http.Response :=
  {| Http.status := code; Http.statusText := "OK";
     Http.contentType := Some "application/json; charset=utf-8";
     Http.bodyText := "{...}"; Http.bodyJson := Some v |}.

(** A response with an empty body and no content type. *)
Definition emptyResponse (code : Z) (text : string) : Http.Response :=
  {| Http.status := code; Http.statusText := text;
     Http.contentType := None; Http.bodyText := ""; Http.bodyJson := None |}.

(** A 200 that announces JSON and sends an empty body. *)
Definition announcedJsonEmptyBody : Http.Response :=
  {| Http.status := 200; Http.statusText := "OK";
     Http.contentType := Some "application/json";
     Http.bodyText := ""; Http.bodyJson := None |}.

(** The request of the list endpoint. *)
Definition listImages : Request :=
  {| method := GET; endpoint := ImagesOf "p1"; body := NoBody |}.

(** What [apiRequest] leaves in the trace: the request, and the logout call
    on a 401. *)
Definition gatewayTrace (req : Request) (out : Http.FetchOutcome) : list Event :=
  match out with
  | Http.Responded r =>
      if Http.status r =? 401 then [EvFetch req; EvLogout] else [EvFetch req]
  | Http.Failed _ => [EvFetch req]
  end.

(** A run with a trace put in front of its own. *)
Definition pre {S A} (t : list Event) (r : Run S A) : Run S A :=
  MkRun (res r) (st r) (t ++ trace r).

(** What [catch] makes of a finished [try] block. *)
Definition catching {S A} (h : Message → M S A) (r : Run S A) : Run S A :=
  match res r with
  | Resolved _ => r
  | Rejected m => pre (trace r) (h m (st r))
  end.

(** What the gateway answers to a settled fetch; the answer is the same for
    every request and every caller. *)
Definition apiAnswer (out : Http.FetchOutcome) : Result Json :=
  res (Gateway.apiRequest listImages out ()).

(** ** The upload queue *)

Import Upload.

(** The queue after the progress events of a transfer. *)
Definition progressed (file : File) (es : list ProgressEvent) (s : Uploads) : Uploads :=
  st (onProgressAll file es s).

(** The run of the [catch] block. *)
Definition failed (file : File) (m : Message) (s : Uploads) : Run Uploads unit :=
  MkRun (Resolved ()) (Upload.setError file m <$> s) [EvUploadError m].

(** Steps 2 and 3, from the PUT on. *)
Definition afterNegotiation (p : Props) (file : File) (url key : option Json)
    (timeout : option Z) (rejection : option Message)
    (es : list ProgressEvent) (out : Http.FetchOutcome)
    (s : Uploads) : Run Uploads unit :=
  let s' := progressed file es s in
  pre [EvXhrPut url (type file) file timeout]
    match rejection with
    | Some m => pre [EvXhrDone file false] (failed file m s')
    | None =>
        pre (EvXhrDone file true :: gatewayTrace (confirmRequest p key) out)
          match apiAnswer out with
          | Rejected m => failed file m s'
          | Resolved image =>
              MkRun (Resolved ()) (setSuccess file key <$> s')
                    [EvUploadComplete image; EvSetTimeout 3000 file]
          end
    end.

(** Steps 2 and 3 of the local transport: an executor that throws sends
    nothing and fails the attempt. *)
Definition afterNegotiationLocal (p : Props) (file : File) (url key : option Json)
    (x : XhrLocal) (es : list ProgressEvent) (out : Http.FetchOutcome)
    (s : Uploads) : Run Uploads unit :=
  match x with
  | LocalThrows reason => pre [EvXhrDone file false] (failed file (MsgText reason) s)
  | _ => afterNegotiation p file url key None (rejectionLocal x) es out s
  end.

(** One attempt through the direct-to-storage transport, in direct style. *)
Definition attemptS3 (p : Props) (file : File) (net : Net XhrS3) (s : Uploads)
  : Run Uploads unit :=
  match validateFile p file with
  | Some m => MkRun (Resolved ()) s [EvUploadError m]
  | None =>
      let s1 := s ++ [newUpload file] in
      pre (gatewayTrace (negotiateS3 p file) (negotiate net))
        match apiAnswer (negotiate net) with
        | Rejected m => failed file m s1
        | Resolved JNull => failed file MsgTypeError s1
        | Resolved v =>
            let url := get_field "upload_url" v in
            let key := get_field "key" v in
            if negb (truthy_opt url) || negb (truthy_opt key) then
              failed file (MsgText "Failed to get upload URL from server") s1
            else
              afterNegotiation p file url key (Some 120000)
                (rejectionS3 (xhr net)) (progressEvents net) (confirm net) s1
        end
  end.

(** One attempt through the local transport, in direct style. *)
Definition attemptLocal (p : Props) (file : File) (net : Net XhrLocal) (s : Uploads)
  : Run Uploads unit :=
  match validateFile p file with
  | Some m => MkRun (Resolved ()) s [EvUploadError m]
  | None =>
      let s1 := s ++ [newUpload file] in
      pre (gatewayTrace (negotiateLocal p file) (negotiate net))
        match apiAnswer (negotiate net) with
        | Rejected m => failed file m s1
        | Resolved JNull => failed file MsgTypeError s1
        | Resolved v =>
            afterNegotiationLocal p file (get_field "uploadUrl" v)
              (get_field "imageKey" v) (xhr net) (progressEvents net) (confirm net) s1
        end
  end.

(** The files that have a task in the queue, and their identities. *)
Definition taskFiles (s : Uploads) : list File := Upload.file <$> s.
Definition taskRefs (s : Uploads) : list nat := ref <$> taskFiles s.

(** The files a validation lets into the queue. *)
Definition queuedFiles (p : Props) (file : File) : list File :=
  match validateFile p file with
  | None => [file]
  | Some _ => []
  end.

(** The trace of one file's attempt, and of a batch: each file's own trace,
    in array order, each followed by the half-second pause. *)
Definition fileTrace (prod : bool) (p : Props) (x : File * Net (Xhr prod)) : list Event :=
  trace (uploadFile prod p x.1 x.2 []).

Definition batchTrace (prod : bool) (p : Props) (batch : list (File * Net (Xhr prod)))
  : list Event :=
  flat_map (λ x, fileTrace prod p x ++ [EvSleep 500]) batch.

(** The pre-check of [handleFiles]. *)
Definition overLimit (p : Props) (s : Uploads) (batchSize : nat) : Prop :=
  Z.of_nat (length s) + Z.of_nat batchSize + currentImageCount p > maxFiles p.

#[global] Instance overLimit_dec p s n : Decision (overLimit p s n).
Proof. unfold overLimit. apply Z_gt_dec. Defined.

(** The "set as primary" flag of a confirm request, if the event is one. *)
Definition isMainOf (e : Event) : option bool :=
  match e with
  | EvFetch r =>
      match body r with
      | ConfirmBody _ isMain => Some isMain
      | _ => None
      end
  | _ => None
  end.

(** The message of a call of the error callback, if the event is one. *)
Definition errorOf (e : Event) : option Message :=
  match e with
  | EvUploadError m => Some m
  | _ => None
  end.

(** An event that is not a confirm request. *)
Definition noConfirm (e : Event) : Prop := isMainOf e = None.

(** The trace of one attempt has at most one confirm request; when it has
    one, the request is for this attempt's key and flag and comes right after
    the PUT of this file was sent and its promise resolved. *)
Definition confirmedShape (p : Props) (file : File) (t : list Event) : Prop :=
  ∃ a url ct timeout key b,
    t = (a ++ [EvXhrPut url ct file timeout; EvXhrDone file true])
          ++ EvFetch (confirmRequest p key) :: b
    ∧ Forall noConfirm a ∧ Forall noConfirm b.

(** The queues the component can be in, at the grain of single state
    updates, so that every interleaving of the asynchronous handlers is
    covered: a freshly selected file is enqueued; a running attempt rewrites
    its own task; a dismissal or the clean-up timer removes a file's tasks;
    a retry removes the file's tasks and enqueues it again, both updates
    being queued back to back by the one handler. *)
Inductive Reachable : Uploads → Prop :=
| reach_init : Reachable []
| reach_enqueue s file :
    Reachable s → ref file ∉ taskRefs s → Reachable (s ++ [newUpload file])
| reach_progress s file pct :
    Reachable s → Reachable (setProgress file pct <$> s)
| reach_success s file key :
    Reachable s → Reachable (setSuccess file key <$> s)
| reach_error s file m :
    Reachable s → Reachable (Upload.setError file m <$> s)
| reach_remove s file :
    Reachable s → Reachable (filter (λ upload, ¬ sameFile file upload) s)
| reach_retry s file :
    Reachable s →
    Reachable (filter (λ upload, ¬ sameFile file upload) s ++ [newUpload file]).

(** ** The gallery *)

(** The requests of the three mutations. *)
Definition promoteRequest (productId imageId : string) : Request :=
  {| method := PUT; endpoint := ImageOf productId imageId; body := NoBody |}.

Definition deleteRequest (productId imageId : string) : Request :=
  {| method := DELETE; endpoint := ImageOf productId imageId; body := NoBody |}.

Definition reorderRequest (productId : string) (imageOrder : list string) : Request :=
  {| method := PUT; endpoint := Reorder productId; body := OrderBody imageOrder |}.

(** The sequence [handleSetPrimary] hands to [onImagesChange]. *)
Definition promoted (imageId : string) (imgs : list ProductImage) : list ProductImage :=
  (λ img, Gallery.withIsMain (bool_decide (id img = imageId)) img) <$> imgs.

(** The sequence [handleSaveReorder] hands to [onImagesChange]. *)
Definition renumbered (imgs : list ProductImage) : list ProductImage :=
  imap (λ index img, Gallery.withDisplayOrder (Z.of_nat index + 1) img) imgs.

(** ** Sample data *)

(** Sample files and network answers. *)
Definition ring : File :=
  {| ref := 1; name := "ring.png"; type := "image/png"; size := 204800 |}.
Definition clasp : File :=
  {| ref := 2; name := "clasp.jpg"; type := "image/jpeg"; size := 512000 |}.
Definition sketch : File :=
  {| ref := 3; name := "sketch.gif"; type := "image/gif"; size := 1024 |}.
Definition pendant : File :=
  {| ref := 4; name := "pendant.webp"; type := "image/webp"; size := 350000 |}.

(** The negotiation answer of the direct-to-storage variant. *)
Definition slot (key : string) : Json :=
  JObj {[ "upload_url" := JStr "https://bucket.example/put"; "key" := JStr key ]}.

(** The confirm answer: the persisted image, here only its id. *)
Definition stored (imageId : string) : Json :=
  JObj {[ "id" := JStr imageId ]}.

(** A network on which all three steps succeed. *)
Definition storageOk (key imageId : string) : Upload.Net Upload.XhrS3 :=
  {| Upload.negotiate := Http.Responded (jsonResponse 200 (slot key));
     Upload.progressEvents :=
       [ {| Upload.lengthComputable := true; Upload.loaded := 50; Upload.total := 100 |} ];
     Upload.xhr := Upload.S3Load 200 "";
     Upload.confirm := Http.Responded (jsonResponse 200 (stored imageId)) |}.

(** A network on which the transfer times out. *)
Definition storageTimeout (key : string) : Upload.Net Upload.XhrS3 :=
  {| Upload.negotiate := Http.Responded (jsonResponse 200 (slot key));
     Upload.progressEvents := [];
     Upload.xhr := Upload.S3Timeout;
     Upload.confirm := Http.Failed "unreachable" |}.

(** Props of a product that already has [count] images, with room for
    [limit]. *)
Definition propsWith (limit count : Z) : Upload.Props :=
  {| Upload.productId := "p1";
     Upload.maxFiles := limit;
     Upload.acceptedTypes := Upload.DEFAULT_ACCEPTED_TYPES;
     Upload.maxSizeBytes := Upload.DEFAULT_MAX_SIZE;
     Upload.currentImageCount := count |}.

(** Sample images and gallery states. *)
Definition image (imageId : string) (primary : bool) (order : Z) : ProductImage :=
  {| id := imageId; product_id := "p1";
     image_url := "https://cdn.example/" +:+ imageId;
     is_main := primary; display_order := order;
     content_type := Some "image/png"; file_size := Some 204800;
     created_at := "2025-01-01T00:00:00Z"; updated_at := "2025-01-01T00:00:00Z" |}.

Definition fourImages : list ProductImage :=
  [image "a" true 1; image "b" false 2; image "c" false 3; image "d" false 4].

(** The gallery in normal mode over a list of images. *)
Definition viewing (imgs : list ProductImage) : Gallery.State :=
  {| Gallery.images := imgs; Gallery.error := None; Gallery.isReordering := false;
     Gallery.reorderImages := []; Gallery.isDeleting := None |}.

(** An answer the gateway resolves with, and one it throws on. *)
Definition accepted : Http.FetchOutcome :=
  Http.Responded (jsonResponse 200 (JObj ∅)).
Definition refused : Http.FetchOutcome :=
  Http.Responded (emptyResponse 500 "Internal Server Error").

(** ** The session layer *)

(** A profile answer that makes [verifyAuthentication] say yes: a 2xx whose
    body parses to a value with [role] equal to ['admin']. *)
Definition adminProfile (out : Http.FetchOutcome) (userData : Json) : Prop :=
  ∃ r, out = Http.Responded r ∧ Http.ok r = true
       ∧ Http.bodyJson r = Some userData
       ∧ get_field "role" userData = Some (JStr "admin").

(** A message that can resolve the login promise with [a]: posted from the
    backend's origin, not an object with a truthy [type], with a truthy
    [success] and the truthy admin user [a] carries. *)
Definition grants (baseURL : string) (event : LoginWithGoogle.MessageEvent)
    (a : LoginWithGoogle.AuthResponse) : Prop :=
  LoginWithGoogle.origin event = baseURL
  ∧ ∃ d ok,
      LoginWithGoogle.data event = Some d
      ∧ (LoginWithGoogle.isObject d && truthy_opt (get_field "type" d) = false)
      ∧ get_field "success" d = Some ok ∧ truthy ok = true
      ∧ get_field "user" d = Some (LoginWithGoogle.user a)
      ∧ truthy (LoginWithGoogle.user a) = true
      ∧ AuthService.isAdmin (get_field "role" (LoginWithGoogle.user a)) = true
      ∧ LoginWithGoogle.csrfToken a = get_field "csrfToken" d.

(** What one callback may do to the shared state: nothing, or settle the
    promise if it is still pending and take the listener away. *)
Definition settles (baseURL : string) (h : LoginWithGoogle.Happening)
    (s s' : LoginWithGoogle.Pending) : Prop :=
  LoginWithGoogle.listening s' = false
  ∧ (LoginWithGoogle.polling s' = true → LoginWithGoogle.closedHere s' = true)
  ∧ ∃ x, LoginWithGoogle.outcome s'
          = match LoginWithGoogle.outcome s with None => Some x | Some y => Some y end
         ∧ ∀ a, x = Resolved a →
             ∃ event, h = LoginWithGoogle.Posted event
                      ∧ LoginWithGoogle.listening s = true
                      ∧ grants baseURL event a.

(** Once the promise is settled the listener is gone, and an interval that
    still runs belongs to a popup this window closed. *)
Definition tidy (s : LoginWithGoogle.Pending) : Prop :=
  LoginWithGoogle.outcome s ≠ None →
  LoginWithGoogle.listening s = false
  ∧ (LoginWithGoogle.polling s = true → LoginWithGoogle.closedHere s = true).

(** Sample answers of the profile endpoint and sample messages. *)
Definition profileOf (role : string) : Json :=
  JObj {[ "id" := JStr "u1"; "role" := JStr role ]}.

Definition loginMessage (from : string) (role : string) : LoginWithGoogle.MessageEvent :=
  {| LoginWithGoogle.origin := from;
     LoginWithGoogle.data :=
       Some (JObj {[ "success" := JBool true; "user" := profileOf role;
                     "csrfToken" := JStr "t0" ]}) |}.

(** ** Reports of the upload queue *)

(** What an attempt tells the owner: the image of [onUploadComplete] or the
    message of [onUploadError]. *)
Definition reportOf (e : Event) : option (Json + Message) :=
  match e with
  | EvUploadComplete image => Some (inl image)
  | EvUploadError m => Some (inr m)
  | _ => None
  end.

Definition reports (t : list Event) : list (Json + Message) := omap reportOf t.

(** The clean-up timers set in a trace. *)
Definition timerOf (e : Event) : option (Z * File) :=
  match e with
  | EvSetTimeout ms f => Some (ms, f)
  | _ => None
  end.

Definition timers (t : list Event) : list (Z * File) := omap timerOf t.

(** The PUTs handed to an XHR in a trace. *)
Definition putOf (e : Event) : option (option Json * string * File * option Z) :=
  match e with
  | EvXhrPut url ct f timeout => Some (url, ct, f, timeout)
  | _ => None
  end.

Definition puts (t : list Event) : list (option Json * string * File * option Z) :=
  omap putOf t.

(** The tasks of the other files. *)
Definition othersOf (file : File) (s : list Upload.UploadProgress)
  : list Upload.UploadProgress :=
  filter (λ upload, ¬ Upload.sameFile file upload) s.

(** The tasks of the file itself. *)
Definition tasksOf (file : File) (s : list Upload.UploadProgress)
  : list Upload.UploadProgress :=
  filter (Upload.sameFile file) s.

(** How an attempt that got past validation ends: it does not throw, and
    the task, having gone through none or all of the progress events, is
    marked as a success (one completion reported, the clean-up timer set) or
    as an error (one error reported, no timer). *)
Definition marked {X} (file : File) (net : Upload.Net X) (s : Upload.Uploads)
    (r : Run Upload.Uploads unit) : Prop :=
  res r = Resolved ()
  ∧ ∃ es, (es = [] ∨ es = Upload.progressEvents net)
      ∧ let queue := progressed file es (s ++ [Upload.newUpload file]) in
        (∃ image key,
           reports (trace r) = [inl image]
           ∧ timers (trace r) = [(3000, file)]
           ∧ st r = Upload.setSuccess file key <$> queue)
        ∨ (∃ m,
             reports (trace r) = [inr m]
             ∧ timers (trace r) = []
             ∧ st r = Upload.setError file m <$> queue).

(** A progress event as a browser fires it: with a computable length, the
    total is positive and the loaded part lies within it. *)
Definition wellFormed (e : Upload.ProgressEvent) : Prop :=
  Upload.lengthComputable e = true →
  0 < Upload.total e ∧ 0 ≤ Upload.loaded e ≤ Upload.total e.

(** A task whose bar is between empty and full. *)
Definition inBounds (upload : Upload.UploadProgress) : Prop :=
  0 ≤ Upload.progress upload ≤ 100.

(** ** Sessions of the gallery *)

(** The drops of a reorder session, each the position a tile was dragged
    from and the position of the tile it was dropped on. *)
Fixpoint dropAll (ds : list (nat * nat)) : M Gallery.State unit :=
  match ds with
  | [] => mret tt
  | (fromIndex, toIndex) :: rest =>
      Gallery.onDrop (Some (Z.of_nat fromIndex)) toIndex ;; dropAll rest
  end.

(** A whole session: enter reorder mode, drag, commit. *)
Definition reorderSession (productId : string) (ds : list (nat * nat))
    (out : Http.FetchOutcome) : M Gallery.State unit :=
  Gallery.handleStartReorder ;;
  dropAll ds ;;
  Gallery.handleSaveReorder productId out.

(** ** The modal *)

(** The images of the [onUploadComplete] calls of a trace. *)
Definition completionOf (e : Event) : option Json :=
  match e with
  | EvUploadComplete image => Some image
  | _ => None
  end.

Definition completions (t : list Event) : list Json := omap completionOf t.

(** The request of the modal's load. *)
Definition loadRequest (productId : string) : Request :=
  {| method := GET; endpoint := ImagesOf productId; body := NoBody |}.

(** A modal showing the upload tab over a list of images. *)
Definition uploading (imgs : list Json) : Modal.State :=
  {| Modal.images := imgs; Modal.isLoading := false; Modal.error := None;
     Modal.activeTab := Modal.UploadTab; Modal.productImages := imgs |}.

(** * Facts *)

(** ** The monad *)

Lemma run_bind {S A B} (c : M S A) (k : A → M S B) (s : S) :
  (c ≫= k) s =
  match res (c s) with
  | Resolved a =>
      MkRun (res (k a (st (c s)))) (st (k a (st (c s))))
            (trace (c s) ++ trace (k a (st (c s))))
  | Rejected m => MkRun (Rejected m) (st (c s)) (trace (c s))
  end.
Proof. reflexivity. Qed.

Lemma run_catch {S A} (c : M S A) (h : Message → M S A) (s : S) :
  try_catch c h s =
  match res (c s) with
  | Resolved a => c s
  | Rejected m =>
      MkRun (res (h m (st (c s)))) (st (h m (st (c s))))
            (trace (c s) ++ trace (h m (st (c s))))
  end.
Proof. reflexivity. Qed.

Lemma run_eta {S A} (r : Run S A) : MkRun (res r) (st r) (trace r) = r.
Proof. by destruct r. Qed.

(** ** The gateway *)

Lemma ok_not_401 (r : Http.Response) : Http.ok r = true → (Http.status r =? 401) = false.
Proof. unfold Http.ok. lia. Qed.

Lemma apiRequest_st {S} req out (s : S) : st (Gateway.apiRequest req out s) = s.
Proof.
  destruct out as [r|reason]; [|done].
  unfold Gateway.apiRequest. rewrite run_bind. simpl.
  destruct (Http.ok r); simpl.
  - destruct (Gateway.isJson r); [destruct (Http.bodyJson r)|]; done.
  - destruct (Http.status r =? 401); done.
Qed.

Lemma apiRequest_trace {S} req out (s : S) :
  trace (Gateway.apiRequest req out s) = gatewayTrace req out.
Proof.
  destruct out as [r|reason]; [|done].
  unfold Gateway.apiRequest, gatewayTrace. rewrite run_bind. simpl.
  destruct (Http.ok r) eqn:Hok; simpl.
  - rewrite (ok_not_401 r Hok).
    destruct (Gateway.isJson r); [destruct (Http.bodyJson r)|]; done.
  - destruct (Http.status r =? 401); done.
Qed.

(** The answer depends on what [fetch] settled to only, not on the request
    or on the caller's state. *)
Lemma apiRequest_res_indep {S S'} req req' out (s : S) (s' : S') :
  res (Gateway.apiRequest req out s) = res (Gateway.apiRequest req' out s').
Proof.
  destruct out as [r|reason]; [|done].
  unfold Gateway.apiRequest. rewrite !run_bind. simpl.
  destruct (Http.ok r); simpl.
  - destruct (Gateway.isJson r); [destruct (Http.bodyJson r)|]; done.
  - destruct (Http.status r =? 401); done.
Qed.

Lemma apiRequest_resolved {S} req out (s : S) v :
  res (Gateway.apiRequest req out s) = Resolved v ↔
  ∃ r, out = Http.Responded r ∧ Http.ok r = true ∧ Gateway.isJson r = true
       ∧ Http.bodyJson r = Some v.
Proof.
  split.
  - destruct out as [r|reason]; [|done].
    unfold Gateway.apiRequest. rewrite run_bind. simpl.
    destruct (Http.ok r) eqn:Hok; simpl.
    + destruct (Gateway.isJson r) eqn:Hjson; [|done].
      destruct (Http.bodyJson r) as [w|] eqn:Hbody; [|done].
      simpl. intros [= ->]. by exists r.
    + destruct (Http.status r =? 401); done.
  - intros (r & -> & Hok & Hjson & Hbody).
    unfold Gateway.apiRequest. rewrite run_bind. simpl.
    by rewrite Hok, Hjson, Hbody.
Qed.

(** C10, as amended. [apiRequest] resolves with a value exactly when the
    response is 2xx, its content type contains [application/json], and its
    body parses as JSON; the value is the parsed body. Every other outcome
    is a thrown Error: a failed [fetch], a status outside 2xx (a 401 also
    calls [logout], and nothing else does), a 2xx without a JSON content
    type, a 2xx whose announced JSON body does not parse. The caller's
    state is never touched. *)
Theorem apiRequest_resolves_iff {S} (req : Request) (out : Http.FetchOutcome) (s : S) :
  let run := Gateway.apiRequest req out s in
  (∀ v, res run = Resolved v ↔
        ∃ r, out = Http.Responded r ∧ Http.ok r = true
             ∧ Gateway.isJson r = true ∧ Http.bodyJson r = Some v)
  ∧ (resolves (res run) ∨ throws (res run))
  ∧ (EvLogout ∈ trace run ↔ ∃ r, out = Http.Responded r ∧ Http.status r = 401)
  ∧ (∀ r, out = Http.Responded r → Http.status r = 401 →
          res run = Rejected (MsgText "Authentication required"))
  ∧ (∀ r, out = Http.Responded r → Http.ok r = true → Gateway.isJson r = false →
          res run = Rejected (MsgText "Invalid JSON response from server"))
  ∧ st run = s.
Proof.
  intros run. subst run. split_and!.
  - intros v. apply apiRequest_resolved.
  - destruct (res (Gateway.apiRequest req out s)) as [v|m];
      [left; by exists v | right; by exists m].
  - rewrite apiRequest_trace. unfold gatewayTrace.
    destruct out as [r|reason].
    + destruct (Z.eqb_spec (Http.status r) 401) as [H401|H401].
      * split; [intros _; by exists r | intros _; set_solver].
      * split.
        -- intros Hin. apply list_elem_of_singleton in Hin. done.
        -- intros (r' & [= <-] & Hst). done.
    + split.
      * intros Hin. apply list_elem_of_singleton in Hin. done.
      * intros (r' & [=] & _).
  - intros r -> H401. unfold Gateway.apiRequest. rewrite run_bind. simpl.
    unfold Http.ok. rewrite H401. done.
  - intros r -> Hok Hjson. unfold Gateway.apiRequest. rewrite run_bind. simpl.
    by rewrite Hok, Hjson.
  - apply apiRequest_st.
Qed.

(** The list endpoint answering with a JSON array resolves with it. *)
Lemma apiRequest_resolves_iff_witness :
  res (Gateway.apiRequest listImages (Http.Responded (jsonResponse 200 (JArr []))) ())
  = Resolved (JArr []).
Proof.
  apply (proj1 (apiRequest_resolves_iff listImages
                  (Http.Responded (jsonResponse 200 (JArr []))) ())).
  exists (jsonResponse 200 (JArr [])). split_and!; reflexivity.
Defined.

(** C10 as first stated fails on a 200 whose content type is
    [application/json] and whose body is empty: [response.json()] rejects,
    and [apiRequest] rethrows. *)
Lemma apiRequest_json_header_not_enough :
  ¬ (resolves (res (Gateway.apiRequest listImages
                      (Http.Responded announcedJsonEmptyBody) ()))
     ↔ (Http.ok announcedJsonEmptyBody = true
        ∧ Gateway.isJson announcedJsonEmptyBody = true)).
Proof.
  intros [_ Hback]. destruct Hback as [v Hv]; [split; reflexivity|].
  vm_compute in Hv. discriminate Hv.
Qed.

(** An empty-bodied success, as the promote, delete and reorder endpoints may
    send, is thrown too. *)
Example apiRequest_empty_success :
  Gateway.apiRequest listImages (Http.Responded (emptyResponse 204 "No Content")) ()
  = MkRun (Rejected (MsgText "Invalid JSON response from server")) () [EvFetch listImages].
Proof. reflexivity. Qed.

Example apiRequest_401 :
  Gateway.apiRequest listImages (Http.Responded (emptyResponse 401 "Unauthorized")) ()
  = MkRun (Rejected (MsgText "Authentication required")) ()
          [EvFetch listImages; EvLogout].
Proof. reflexivity. Qed.

Example apiRequest_500_text :
  res (Gateway.apiRequest listImages (Http.Responded (emptyResponse 500 "Internal Server Error")) ())
  = Rejected (MsgHttp 500 "Internal Server Error").
Proof. reflexivity. Qed.

(** ** Symbolic execution of handlers *)

Lemma pre_nil {S A} (r : Run S A) : pre [] r = r.
Proof. by destruct r. Qed.

Lemma pre_pre {S A} t t' (r : Run S A) : pre t (pre t' r) = pre (t ++ t') r.
Proof. unfold pre. simpl. by rewrite app_assoc. Qed.

Lemma pre_mk {S A} t (x : Result A) (s : S) t' :
  pre t (MkRun x s t') = MkRun x s (t ++ t').
Proof. done. Qed.

Lemma run_emit {S B} e (k : unit → M S B) s :
  (emit e ≫= k) s = pre [e] (k () s).
Proof. done. Qed.

Lemma run_modify {S B} (f : S → S) (k : unit → M S B) s :
  (modify f ≫= k) s = k () (f s).
Proof. rewrite run_bind. simpl. apply run_eta. Qed.

Lemma run_gets {S A B} (f : S → A) (k : A → M S B) s :
  (gets f ≫= k) s = k (f s) s.
Proof. rewrite run_bind. simpl. apply run_eta. Qed.

Lemma run_ret {S A B} (a : A) (k : A → M S B) s :
  (mret a ≫= k) s = k a s.
Proof. rewrite run_bind. simpl. apply run_eta. Qed.

Lemma run_throw {S A B} m (k : A → M S B) s :
  (throw m ≫= k) s = MkRun (Rejected m) s [].
Proof. done. Qed.

Lemma run_try {S A} (c : M S A) h s : try_catch c h s = catching h (c s).
Proof. done. Qed.

Lemma catching_pre {S A} (h : Message → M S A) t r :
  catching h (pre t r) = pre t (catching h r).
Proof.
  unfold catching. simpl. destruct (res r); [done|].
  by rewrite pre_pre.
Qed.

Lemma catching_resolved {S A} (h : Message → M S A) a s t :
  catching h (MkRun (Resolved a) s t) = MkRun (Resolved a) s t.
Proof. done. Qed.

Lemma catching_rejected {S A} (h : Message → M S A) m s t :
  catching h (MkRun (Rejected m) s t) = pre t (h m s).
Proof. done. Qed.

Create Rewrite HintDb run.
#[global] Hint Rewrite @run_modify @run_gets @run_ret @run_try @catching_pre : run.

Lemma apiRequest_run {S} req out (s : S) :
  Gateway.apiRequest req out s = MkRun (apiAnswer out) s (gatewayTrace req out).
Proof.
  rewrite <- (run_eta (Gateway.apiRequest req out s)).
  rewrite apiRequest_st, apiRequest_trace. f_equal.
  apply apiRequest_res_indep.
Qed.

Lemma run_apiRequest {S B} req out (k : Json → M S B) s :
  (Gateway.apiRequest req out ≫= k) s =
  match apiAnswer out with
  | Resolved v => pre (gatewayTrace req out) (k v s)
  | Rejected m => MkRun (Rejected m) s (gatewayTrace req out)
  end.
Proof. rewrite run_bind, apiRequest_run. simpl. by destruct (apiAnswer out). Qed.

(** ** The upload queue *)

Lemma onCatch_run file m s : onCatch file m s = failed file m s.
Proof. done. Qed.

Lemma onProgressAll_run file es s :
  onProgressAll file es s = MkRun (Resolved ()) (progressed file es s) [].
Proof.
  unfold progressed. revert s. induction es as [|e es IH]; intros s; [done|].
  simpl. rewrite run_bind.
  assert (He : onProgress file e s = MkRun (Resolved ()) (st (onProgress file e s)) []).
  { unfold onProgress. by destruct (lengthComputable e). }
  rewrite He. simpl. rewrite IH. done.
Qed.

Lemma run_onProgressAll {B} file es (k : unit → M Uploads B) s :
  (onProgressAll file es ≫= k) s = k () (progressed file es s).
Proof. rewrite run_bind, onProgressAll_run. simpl. apply run_eta. Qed.

Lemma tail_run p file url key timeout rejection es out s :
  catching (onCatch file)
    ((emit (EvXhrPut url (type file) file timeout) ;;
      onProgressAll file es ;;
      settle file rejection ;;
      confirmAndFinish p file key out) s)
  = afterNegotiation p file url key timeout rejection es out s.
Proof.
  unfold afterNegotiation.
  rewrite run_emit, catching_pre. f_equal.
  rewrite run_onProgressAll.
  destruct rejection as [m|]; simpl.
  - done.
  - rewrite run_emit, catching_pre.
    unfold confirmAndFinish. rewrite run_apiRequest.
    destruct (apiAnswer out) as [image|m]; done.
Qed.

Lemma uploadFileS3_run p file net s :
  uploadFileS3 p file net s = attemptS3 p file net s.
Proof.
  unfold uploadFileS3, attemptS3.
  destruct (validateFile p file) as [m|]; [done|].
  rewrite run_modify, run_try, run_apiRequest.
  destruct (apiAnswer (negotiate net)) as [v|m]; [|done].
  rewrite catching_pre. f_equal.
  destruct v; try done; simpl; rewrite ?run_ret;
    try (destruct (negb _ || negb _); [done|]);
    rewrite ?run_ret; apply tail_run.
Qed.

Lemma tail_run_local p file url key x es out s :
  catching (onCatch file)
    ((if sendsLocal x then
        emit (EvXhrPut url (type file) file None) ;;
        onProgressAll file es ;;
        settle file (rejectionLocal x) ;;
        confirmAndFinish p file key out
      else
        settle file (rejectionLocal x) ;;
        confirmAndFinish p file key out) s)
  = afterNegotiationLocal p file url key x es out s.
Proof. destruct x; [apply tail_run..|done]. Qed.

Lemma uploadFileLocal_run p file net s :
  uploadFileLocal p file net s = attemptLocal p file net s.
Proof.
  unfold uploadFileLocal, attemptLocal.
  destruct (validateFile p file) as [m|]; [done|].
  rewrite run_modify, run_try, run_apiRequest.
  destruct (apiAnswer (negotiate net)) as [v|m]; [|done].
  rewrite catching_pre. f_equal.
  destruct v; try done; simpl; rewrite ?run_ret; apply tail_run_local.
Qed.

Lemma uploadFile_run prod p file (net : Net (Xhr prod)) s :
  uploadFile prod p file net s =
  match prod as b return Net (Xhr b) → Run Uploads unit with
  | true => λ net, attemptS3 p file net s
  | false => λ net, attemptLocal p file net s
  end net.
Proof. destruct prod; [apply uploadFileS3_run | apply uploadFileLocal_run]. Qed.

(** *** One attempt: result, queue and trace *)

(** Rewriting a task in place keeps the file it belongs to. *)
Ltac same_files :=
  unfold taskFiles; rewrite <- list_fmap_compose; apply list_fmap_ext;
  intros _ ? _; unfold Upload.setError, setSuccess, setProgress; simpl;
  by destruct (decide _).

Lemma taskFiles_setError file m s : taskFiles (Upload.setError file m <$> s) = taskFiles s.
Proof. same_files. Qed.

Lemma taskFiles_setSuccess file key s : taskFiles (setSuccess file key <$> s) = taskFiles s.
Proof. same_files. Qed.

Lemma taskFiles_setProgress file pct s : taskFiles (setProgress file pct <$> s) = taskFiles s.
Proof. same_files. Qed.

Lemma taskFiles_progressed file es s : taskFiles (progressed file es s) = taskFiles s.
Proof.
  unfold progressed. revert s. induction es as [|e es IH]; intros s; [done|].
  simpl. rewrite run_bind.
  unfold onProgress at 1 2 3. destruct (lengthComputable e); simpl.
  - rewrite IH. apply taskFiles_setProgress.
  - apply IH.
Qed.

Lemma taskFiles_app s s' : taskFiles (s ++ s') = taskFiles s ++ taskFiles s'.
Proof. apply fmap_app. Qed.

Lemma afterNegotiation_facts p file url key timeout rejection es out s :
  let r := afterNegotiation p file url key timeout rejection es out s in
  res r = Resolved ()
  ∧ taskFiles (st r) = taskFiles s
  ∧ trace r = trace (afterNegotiation p file url key timeout rejection es out []).
Proof.
  unfold afterNegotiation. simpl.
  destruct rejection as [m|]; simpl.
  - by rewrite taskFiles_setError, taskFiles_progressed.
  - destruct (apiAnswer out) as [image|m]; simpl.
    + by rewrite taskFiles_setSuccess, taskFiles_progressed.
    + by rewrite taskFiles_setError, taskFiles_progressed.
Qed.

Lemma afterNegotiationLocal_facts p file url key x es out s :
  let r := afterNegotiationLocal p file url key x es out s in
  res r = Resolved ()
  ∧ taskFiles (st r) = taskFiles s
  ∧ trace r = trace (afterNegotiationLocal p file url key x es out []).
Proof.
  destruct x; [apply afterNegotiation_facts..|].
  simpl. by rewrite taskFiles_setError.
Qed.

Local Opaque afterNegotiation afterNegotiationLocal.

Lemma attemptS3_facts p file net s :
  let r := attemptS3 p file net s in
  res r = Resolved ()
  ∧ taskFiles (st r) = taskFiles s ++ queuedFiles p file
  ∧ trace r = trace (attemptS3 p file net []).
Proof.
  unfold attemptS3, queuedFiles.
  destruct (validateFile p file) as [m|]; simpl.
  { by rewrite app_nil_r. }
  destruct (apiAnswer (negotiate net)) as [v|m]; simpl.
  2: { by rewrite taskFiles_setError, taskFiles_app. }
  assert (Hfail : ∀ m, taskFiles (Upload.setError file m <$> s ++ [newUpload file])
                       = taskFiles s ++ [file]).
  { intros m. by rewrite taskFiles_setError, taskFiles_app. }
  destruct v; simpl; try by rewrite Hfail.
  destruct (negb _ || negb _); simpl; [by rewrite Hfail|].
  match goal with
  | |- context [afterNegotiation ?p ?f ?u ?k ?t ?rj ?es ?o (s ++ ?x)] =>
      destruct (afterNegotiation_facts p f u k t rj es o (s ++ x)) as (-> & -> & ->);
      destruct (afterNegotiation_facts p f u k t rj es o x) as (_ & _ & ->)
  end.
  by rewrite taskFiles_app.
Qed.

Lemma attemptLocal_facts p file net s :
  let r := attemptLocal p file net s in
  res r = Resolved ()
  ∧ taskFiles (st r) = taskFiles s ++ queuedFiles p file
  ∧ trace r = trace (attemptLocal p file net []).
Proof.
  unfold attemptLocal, queuedFiles.
  destruct (validateFile p file) as [m|]; simpl.
  { by rewrite app_nil_r. }
  destruct (apiAnswer (negotiate net)) as [v|m]; simpl.
  2: { by rewrite taskFiles_setError, taskFiles_app. }
  assert (Hfail : ∀ m, taskFiles (Upload.setError file m <$> s ++ [newUpload file])
                       = taskFiles s ++ [file]).
  { intros m. by rewrite taskFiles_setError, taskFiles_app. }
  destruct v; simpl; try (by rewrite Hfail);
    match goal with
    | |- context [afterNegotiationLocal ?p ?f ?u ?k ?x ?es ?o (s ++ ?q)] =>
        destruct (afterNegotiationLocal_facts p f u k x es o (s ++ q)) as (-> & -> & ->);
        destruct (afterNegotiationLocal_facts p f u k x es o q) as (_ & _ & ->)
    end;
    by rewrite taskFiles_app.
Qed.

Local Transparent afterNegotiation afterNegotiationLocal.

(** An attempt always settles without throwing; it lets the file into the
    queue exactly when validation passes and otherwise leaves the set of
    queued files alone; its trace does not depend on the queue. *)
Lemma uploadFile_facts prod p file (net : Net (Xhr prod)) s :
  let r := uploadFile prod p file net s in
  res r = Resolved ()
  ∧ taskFiles (st r) = taskFiles s ++ queuedFiles p file
  ∧ trace r = trace (uploadFile prod p file net []).
Proof.
  destruct prod; simpl.
  - rewrite !uploadFileS3_run. apply attemptS3_facts.
  - rewrite !uploadFileLocal_run. apply attemptLocal_facts.
Qed.

Lemma uploadFile_res prod p file (net : Net (Xhr prod)) s :
  res (uploadFile prod p file net s) = Resolved ().
Proof. apply uploadFile_facts. Qed.

Lemma uploadFile_invalid prod p file (net : Net (Xhr prod)) s m :
  validateFile p file = Some m →
  uploadFile prod p file net s = MkRun (Resolved ()) s [EvUploadError m].
Proof.
  intros Hv. destruct prod; simpl.
  - unfold uploadFileS3. by rewrite Hv.
  - unfold uploadFileLocal. by rewrite Hv.
Qed.

(** *** A batch *)

Lemma uploadEach_cons prod p x rest s :
  uploadEach prod p (x :: rest) s =
  pre (trace (uploadFile prod p x.1 x.2 s) ++ [EvSleep 500])
      (uploadEach prod p rest (st (uploadFile prod p x.1 x.2 s))).
Proof.
  destruct x as [file net]. simpl. rewrite run_bind, uploadFile_res.
  rewrite run_emit. unfold pre. simpl. by rewrite <- app_assoc.
Qed.

Lemma uploadEach_facts prod p batch s :
  let r := uploadEach prod p batch s in
  res r = Resolved ()
  ∧ taskFiles (st r) = taskFiles s ++ flat_map (queuedFiles p) batch.*1
  ∧ trace r = batchTrace prod p batch.
Proof.
  revert s. induction batch as [|x rest IH]; intros s.
  { simpl. by rewrite app_nil_r. }
  cbv zeta. rewrite uploadEach_cons. unfold pre. cbn [res st trace].
  destruct (uploadFile_facts prod p x.1 x.2 s) as (_ & Hfiles & Htrace).
  destruct (IH (st (uploadFile prod p x.1 x.2 s))) as (Hres & Hfiles' & Htrace').
  split_and!.
  - done.
  - rewrite Hfiles', Hfiles. rewrite fmap_cons. simpl flat_map.
    by rewrite <- app_assoc.
  - rewrite Htrace', Htrace. done.
Qed.

Lemma uploadEach_app prod p before after s :
  uploadEach prod p (before ++ after) s =
  pre (trace (uploadEach prod p before s))
      (uploadEach prod p after (st (uploadEach prod p before s))).
Proof.
  revert s. induction before as [|x rest IH]; intros s.
  { simpl. by rewrite pre_nil. }
  simpl app. rewrite !uploadEach_cons, IH, pre_pre. done.
Qed.

Lemma handleFiles_run prod p batch s :
  handleFiles prod p batch s =
  if decide (overLimit p s (length batch)) then
    MkRun (Resolved ()) s [EvUploadError (MsgMaxFiles (maxFiles p))]
  else uploadEach prod p batch s.
Proof.
  unfold handleFiles. rewrite run_gets. unfold overLimit.
  destruct (Z.gtb_spec (Z.of_nat (length s) + Z.of_nat (length batch) + currentImageCount p)
              (maxFiles p)); destruct (decide _); done || lia.
Qed.

(** *** Where the confirm request sits in a trace *)

Lemma gatewayTrace_cons req out :
  ∃ tail, gatewayTrace req out = EvFetch req :: tail ∧ Forall noConfirm tail.
Proof.
  destruct out as [r|reason]; simpl; [destruct (Http.status r =? 401)|];
    (eexists; split; [reflexivity|]); by repeat constructor.
Qed.

Lemma gatewayTrace_noConfirm req out :
  noConfirm (EvFetch req) → Forall noConfirm (gatewayTrace req out).
Proof.
  intros Hreq. destruct (gatewayTrace_cons req out) as (tail & -> & Htail).
  by constructor.
Qed.

Lemma afterNegotiation_shape p file url key timeout rejection es out s a :
  Forall noConfirm a →
  let t := a ++ trace (afterNegotiation p file url key timeout rejection es out s) in
  Forall noConfirm t ∨ confirmedShape p file t.
Proof.
  intros Ha. unfold afterNegotiation. simpl.
  destruct rejection as [m|]; simpl.
  - left. apply Forall_app. split; [done|]. by repeat constructor.
  - right. destruct (gatewayTrace_cons (confirmRequest p key) out) as (tail & -> & Htail).
    exists a, url, (type file), timeout, key.
    eexists. split; [by rewrite <- app_assoc|]. split; [done|].
    apply Forall_app. split; [done|].
    destruct (apiAnswer out); by repeat constructor.
Qed.

Lemma afterNegotiationLocal_shape p file url key x es out s a :
  Forall noConfirm a →
  let t := a ++ trace (afterNegotiationLocal p file url key x es out s) in
  Forall noConfirm t ∨ confirmedShape p file t.
Proof.
  intros Ha. destruct x; [by apply afterNegotiation_shape..|].
  left. apply Forall_app. split; [done|]. by repeat constructor.
Qed.

Lemma attempt_shape prod p file (net : Net (Xhr prod)) s :
  let t := trace (uploadFile prod p file net s) in
  Forall noConfirm t ∨ confirmedShape p file t.
Proof.
  assert (Hfail : ∀ a m s', Forall noConfirm a →
            Forall noConfirm (a ++ trace (failed file m s'))).
  { intros a m s' Ha. apply Forall_app. split; [done|]. by repeat constructor. }
  destruct prod; simpl in net; simpl.
  - rewrite uploadFileS3_run. unfold attemptS3.
    destruct (validateFile p file) as [m|]; [left; by repeat constructor|].
    pose proof (gatewayTrace_noConfirm (negotiateS3 p file) (negotiate net) eq_refl) as Hneg.
    cbn [trace pre].
    destruct (apiAnswer (negotiate net)) as [v|m]; [|left; by apply Hfail].
    destruct v; try (left; by apply Hfail).
    destruct (negb _ || negb _); [left; by apply Hfail|].
    by apply afterNegotiation_shape.
  - rewrite uploadFileLocal_run. unfold attemptLocal.
    destruct (validateFile p file) as [m|]; [left; by repeat constructor|].
    pose proof (gatewayTrace_noConfirm (negotiateLocal p file) (negotiate net) eq_refl) as Hneg.
    cbn [trace pre].
    destruct (apiAnswer (negotiate net)) as [v|m]; [|left; by apply Hfail].
    destruct v; try (left; by apply Hfail); by apply afterNegotiationLocal_shape.
Qed.

(** In a list with a single element satisfying [P], a split at such an
    element is the split at that one. *)
Lemma split_at_only {A} (P : A → Prop) (a : list A) c b t1 e t2 :
  Forall (λ x, ¬ P x) a → Forall (λ x, ¬ P x) b → P e →
  a ++ c :: b = t1 ++ e :: t2 → t1 = a ∧ e = c ∧ t2 = b.
Proof.
  intros Ha Hb He. revert t1. induction a as [|x a IH]; intros t1 Heq.
  - destruct t1 as [|y t1]; simpl in Heq; injection Heq as -> Heq.
    + by subst.
    + subst b. apply Forall_app in Hb as [_ Hb].
      apply Forall_cons in Hb as [Hb _]. done.
  - destruct t1 as [|y t1]; simpl in Heq; injection Heq as -> Heq.
    + apply Forall_cons in Ha as [Ha _]. done.
    + apply Forall_cons in Ha as [_ Ha].
      destruct (IH Ha t1 Heq) as (-> & -> & ->). done.
Qed.

Lemma noConfirm_not_Some (l : list Event) :
  Forall noConfirm l → Forall (λ e, ¬ is_Some (isMainOf e)) l.
Proof.
  intros Hl. eapply Forall_impl; [exact Hl|].
  intros e He [b Hb]. unfold noConfirm in He. congruence.
Qed.

(** *** The flag of the confirm step *)

(** Every confirm request of a batch carries the same flag: whether the
    props the batch handler closed over count zero images. *)
Lemma batch_confirm_flags prod p batch s :
  Forall (λ isMain, isMain = (currentImageCount p =? 0))
         (omap isMainOf (trace (handleFiles prod p batch s))).
Proof.
  rewrite handleFiles_run. destruct (decide _); [constructor|].
  destruct (uploadEach_facts prod p batch s) as (_ & _ & ->).
  clear. induction batch as [|x rest IH]; [constructor|].
  unfold batchTrace. simpl. rewrite !omap_app. simpl.
  apply Forall_app. split; [|done].
  unfold fileTrace.
  destruct (attempt_shape prod p x.1 x.2 []) as [Hno|Hshape].
  - replace (omap isMainOf _) with (@nil bool); [constructor|].
    symmetry. induction Hno as [|e l He _ IHl]; [done|].
    simpl. unfold noConfirm in He. by rewrite He.
  - destruct Hshape as (a & url & ct & timeout & key & b & -> & Ha & Hb).
    assert (Hnone : ∀ l, Forall noConfirm l → omap isMainOf l = []).
    { intros l Hl. induction Hl as [|e l He _ IHl]; [done|].
      simpl. unfold noConfirm in He. by rewrite He. }
    rewrite !omap_app, (Hnone a Ha). cbn [omap list_omap isMainOf app].
    rewrite (Hnone b Hb). by repeat constructor.
Qed.

Lemma validateFile_None p file :
  validateFile p file = None ↔
  type file ∈ acceptedTypes p ∧ size file ≤ maxSizeBytes p.
Proof.
  unfold validateFile. case_bool_decide as Hin; simpl.
  - destruct (Z.gtb_spec (size file) (maxSizeBytes p)) as [Hgt|Hle].
    + split; [done|]. intros [_ ?]. lia.
    + split; [|done]. intros _. split; [done|lia].
  - split; [done|]. intros [? _]. done.
Qed.

Lemma validateFile_Some p file :
  (type file ∉ acceptedTypes p ∨ size file > maxSizeBytes p) →
  ∃ m, validateFile p file = Some m.
Proof.
  intros Hbad. destruct (validateFile p file) as [m|] eqn:Hv; [by exists m|].
  apply validateFile_None in Hv as [Hin Hsize]. destruct Hbad; [done|lia].
Qed.

(** C1. The flag sent with the second confirm of a two-file batch on a
    product without images: both files are negotiated as [main] and both
    confirm requests carry [isMain = true], the second one although the
    product no longer has zero images when that upload begins. *)
Theorem second_upload_of_batch_confirmed_as_main :
  let p := defaultProps "p1" in
  currentImageCount p = 0
  ∧ trace (handleFiles true p
             [(ring, storageOk "k1" "img-1"); (clasp, storageOk "k2" "img-2")] [])
    = [ EvFetch (negotiateS3 p ring);
        EvXhrPut (Some (JStr "https://bucket.example/put")) "image/png" ring (Some 120000);
        EvXhrDone ring true;
        EvFetch {| method := POST; endpoint := ConfirmUpload "p1";
                   body := ConfirmBody (Some (JStr "k1")) true |};
        EvUploadComplete (stored "img-1");
        EvSetTimeout 3000 ring;
        EvSleep 500;
        EvFetch (negotiateS3 p clasp);
        EvXhrPut (Some (JStr "https://bucket.example/put")) "image/jpeg" clasp (Some 120000);
        EvXhrDone clasp true;
        EvFetch {| method := POST; endpoint := ConfirmUpload "p1";
                   body := ConfirmBody (Some (JStr "k2")) true |};
        EvUploadComplete (stored "img-2");
        EvSetTimeout 3000 clasp;
        EvSleep 500 ]
  ∧ omap isMainOf
      (trace (handleFiles true p
                [(ring, storageOk "k1" "img-1"); (clasp, storageOk "k2" "img-2")] []))
    = [true; true].
Proof. split_and!; vm_compute; reflexivity. Qed.

(** C2, as amended: the variant with two transports. A batch that would
    take the product over [maxFiles] (10 by default), counting the queue,
    the batch and the images the product has, is rejected whole: one error
    through the callback, the queue as it was, nothing sent. *)
Theorem oversized_batch_rejected_whole prod (p : Props)
    (batch : list (File * Net (Xhr prod))) (s : Uploads) :
  overLimit p s (length batch) →
  handleFiles prod p batch s
  = MkRun (Resolved ()) s [EvUploadError (MsgMaxFiles (maxFiles p))]
  ∧ maxFiles (defaultProps (productId p)) = 10.
Proof.
  intros Hover. split; [|done].
  rewrite handleFiles_run. by destruct (decide _).
Qed.

Lemma oversized_batch_rejected_whole_witness :
  handleFiles true (propsWith 10 9)
    [(ring, storageOk "k1" "img-1"); (clasp, storageOk "k2" "img-2")] []
  = MkRun (Resolved ()) [] [EvUploadError (MsgMaxFiles 10)].
Proof.
  apply (oversized_batch_rejected_whole true (propsWith 10 9)
           [(ring, storageOk "k1" "img-1"); (clasp, storageOk "k2" "img-2")] []).
  unfold overLimit. simpl. lia.
Defined.

(** C2 as first stated fails on the earlier variant: with room for two, one
    task queued and one image on the product, a batch of two valid files is
    over the limit, yet its first file is taken (a task is created and the
    negotiation is sent), the second is dropped, and no error is raised. *)
Lemma legacy_takes_part_of_oversized_batch :
  let p := propsWith 2 1 in
  let queue := [newUpload ring] in
  overLimit p queue (length [clasp; pendant])
  ∧ validateFile p clasp = None ∧ validateFile p pendant = None
  ∧ Legacy.handleFiles p [clasp; pendant] queue
    = MkRun (Resolved ()) [newUpload ring; newUpload clasp]
            [EvFetch (negotiateLocal p clasp)].
Proof. split_and!; [unfold overLimit; simpl; lia | reflexivity..]. Qed.

(** C3. A file whose type is not in the allow-list, or whose size is over
    the maximum, is turned away by the error callback alone: no task is
    created and nothing is sent. In a batch that passes the pre-check, the
    files around it are uploaded as they would be without it: the loop
    reports the error, pauses, and goes on from the same queue. The defaults
    are the four image types and 10 MiB. *)
Theorem invalid_file_rejected_before_network prod (p : Props) (file : File)
    (net : Net (Xhr prod)) :
  (type file ∉ acceptedTypes p ∨ size file > maxSizeBytes p) →
  (∃ m, validateFile p file = Some m
     ∧ (∀ s, uploadFile prod p file net s = MkRun (Resolved ()) s [EvUploadError m])
     ∧ (∀ before after s,
          let r := uploadEach prod p before s in
          uploadEach prod p (before ++ (file, net) :: after) s
          = pre (trace r ++ [EvUploadError m; EvSleep 500])
                (uploadEach prod p after (st r)))
     ∧ (∀ before after s,
          st (uploadEach prod p (before ++ (file, net) :: after) s)
          = st (uploadEach prod p (before ++ after) s))
     ∧ (∀ before after s,
          ¬ overLimit p s (length (before ++ (file, net) :: after)) →
          let r := uploadEach prod p before s in
          handleFiles prod p (before ++ (file, net) :: after) s
          = pre (trace r ++ [EvUploadError m; EvSleep 500])
                (uploadEach prod p after (st r))))
  ∧ acceptedTypes (defaultProps (productId p))
    = ["image/jpeg"; "image/jpg"; "image/png"; "image/webp"]
  ∧ maxSizeBytes (defaultProps (productId p)) = 10 * 1024 * 1024.
Proof.
  intros Hbad. split; [|done].
  destruct (validateFile_Some p file Hbad) as [m Hm]. exists m.
  assert (Hone : ∀ s, uploadFile prod p file net s
                      = MkRun (Resolved ()) s [EvUploadError m]).
  { intros s. by apply uploadFile_invalid. }
  assert (Hsplit : ∀ before after s,
            uploadEach prod p (before ++ (file, net) :: after) s
            = pre (trace (uploadEach prod p before s) ++ [EvUploadError m; EvSleep 500])
                  (uploadEach prod p after (st (uploadEach prod p before s)))).
  { intros before after s. rewrite uploadEach_app, uploadEach_cons. simpl.
    rewrite Hone. simpl. by rewrite pre_pre. }
  split_and!; [done|done|done| |].
  - intros before after s. rewrite Hsplit, uploadEach_app. done.
  - intros before after s Hfits r. subst r. rewrite handleFiles_run.
    destruct (decide _); [done|]. apply Hsplit.
Qed.

Lemma invalid_file_rejected_before_network_witness :
  ∃ m, ∀ s, uploadFile true (defaultProps "p1") sketch (storageOk "k" "i") s
            = MkRun (Resolved ()) s [EvUploadError m].
Proof.
  destruct (invalid_file_rejected_before_network true (defaultProps "p1") sketch
              (storageOk "k" "i")) as [(m & _ & Hm & _) _].
  - left. vm_compute. intros Hin. repeat (apply elem_of_cons in Hin as [Hin|Hin]; [discriminate Hin|]).
    by apply elem_of_nil in Hin.
  - by exists m.
Defined.

(** The scenario of the specification: of three files, the second has the
    wrong type; the first and the third reach [Success], the second never
    becomes a task. *)
Example batch_with_one_invalid_file :
  let r := handleFiles true (defaultProps "p1")
             [(ring, storageOk "k1" "img-1"); (sketch, storageOk "k2" "img-2");
              (clasp, storageOk "k3" "img-3")] [] in
  (λ u, (Upload.file u, Upload.status u)) <$> st r = [(ring, Success); (clasp, Success)]
  ∧ omap errorOf (trace r) = [MsgFileType "image/gif" DEFAULT_ACCEPTED_TYPES].
Proof. split; vm_compute; reflexivity. Qed.

(** C9. A batch that passes the pre-check is uploaded one file at a time in
    array order: its trace is the first file's whole trace, a pause of
    500 ms, the second file's whole trace, a pause of 500 ms, and so on.
    Within a file's trace, a confirm request is issued only right after the
    PUT of that file was sent and its promise resolved. *)
Theorem uploads_are_sequential prod (p : Props)
    (batch : list (File * Net (Xhr prod))) (s : Uploads) :
  ¬ overLimit p s (length batch) →
  trace (handleFiles prod p batch s)
  = flat_map (λ x, trace (uploadFile prod p x.1 x.2 []) ++ [EvSleep 500]) batch
  ∧ (∀ x s', trace (uploadFile prod p x.1 x.2 s') = trace (uploadFile prod p x.1 x.2 []))
  ∧ (∀ x t1 e t2,
       trace (uploadFile prod p x.1 x.2 []) = t1 ++ e :: t2 →
       is_Some (isMainOf e) →
       ∃ t0 url ct timeout,
         t1 = t0 ++ [EvXhrPut url ct x.1 timeout; EvXhrDone x.1 true]).
Proof.
  intros Hfits. split_and!.
  - rewrite handleFiles_run. destruct (decide _); [done|].
    by destruct (uploadEach_facts prod p batch s) as (_ & _ & ->).
  - intros x s'. apply uploadFile_facts.
  - intros x t1 e t2 Ht He.
    destruct (attempt_shape prod p x.1 x.2 []) as [Hno|Hshape]; simpl in *.
    + rewrite Ht in Hno. apply Forall_app in Hno as [_ Hno].
      apply Forall_cons in Hno as [Hno _]. unfold noConfirm in Hno.
      rewrite Hno in He. by destruct He.
    + destruct Hshape as (a & url & ct & timeout & key & b & Heq & Ha & Hb).
      rewrite Ht in Heq. symmetry in Heq.
      apply (split_at_only (λ e, is_Some (isMainOf e))) in Heq as (-> & _ & _).
      * by exists a, url, ct, timeout.
      * apply noConfirm_not_Some, Forall_app. split; [done|]. by repeat constructor.
      * by apply noConfirm_not_Some.
      * done.
Qed.

Lemma uploads_are_sequential_witness :
  trace (handleFiles true (defaultProps "p1")
           [(ring, storageOk "k1" "img-1"); (clasp, storageTimeout "k2")] [])
  = (trace (uploadFile true (defaultProps "p1") ring (storageOk "k1" "img-1") [])
       ++ [EvSleep 500])
    ++ (trace (uploadFile true (defaultProps "p1") clasp (storageTimeout "k2") [])
       ++ [EvSleep 500]) ++ [].
Proof.
  apply (uploads_are_sequential true (defaultProps "p1")
           [(ring, storageOk "k1" "img-1"); (clasp, storageTimeout "k2")] []).
  unfold overLimit. simpl. lia.
Defined.

(** *** One task per file *)

Lemma taskRefs_app s s' : taskRefs (s ++ s') = taskRefs s ++ taskRefs s'.
Proof. unfold taskRefs. by rewrite taskFiles_app, fmap_app. Qed.

Lemma taskRefs_removed file s :
  ref file ∉ taskRefs (filter (λ upload, ¬ sameFile file upload) s).
Proof.
  unfold taskRefs, taskFiles. rewrite <- list_fmap_compose.
  intros (u & Hu & Hin)%list_elem_of_fmap.
  apply list_elem_of_filter in Hin as [Hne _]. apply Hne. by symmetry.
Qed.

Lemma NoDup_taskRefs_filter (P : UploadProgress → Prop) `{!∀ u, Decision (P u)} s :
  NoDup (taskRefs s) → NoDup (taskRefs (filter P s)).
Proof.
  unfold taskRefs, taskFiles. rewrite <- !list_fmap_compose.
  intros Hs. eapply sublist_NoDup; [exact Hs|].
  apply fmap_sublist, sublist_filter.
Qed.

Lemma NoDup_enqueue file s :
  NoDup (taskRefs s) → ref file ∉ taskRefs s →
  NoDup (taskRefs (s ++ [newUpload file])).
Proof.
  intros Hs Hfresh. rewrite taskRefs_app. apply NoDup_app. split_and!.
  - done.
  - intros r Hr Hin. apply list_elem_of_singleton in Hin. by subst.
  - apply NoDup_singleton.
Qed.

(** At most one task per file identity, in every reachable queue. *)
Lemma reachable_one_task_per_file s : Reachable s → NoDup (taskRefs s).
Proof.
  induction 1 as [|s file _ IH Hfresh|s file pct _ IH|s file key _ IH
                  |s file m _ IH|s file _ IH|s file _ IH].
  - constructor.
  - by apply NoDup_enqueue.
  - unfold taskRefs. by rewrite taskFiles_setProgress.
  - unfold taskRefs. by rewrite taskFiles_setSuccess.
  - unfold taskRefs. by rewrite taskFiles_setError.
  - by apply NoDup_taskRefs_filter.
  - apply NoDup_enqueue; [by apply NoDup_taskRefs_filter | apply taskRefs_removed].
Qed.

Lemma reachable_progressed file es s : Reachable s → Reachable (progressed file es s).
Proof.
  unfold progressed. revert s. induction es as [|e es IH]; intros s Hs; [done|].
  simpl. rewrite run_bind.
  unfold onProgress at 1 2 3. destruct (lengthComputable e); simpl.
  - apply IH. by constructor.
  - by apply IH.
Qed.

Lemma reachable_afterNegotiation p file url key timeout rejection es out s :
  Reachable s →
  Reachable (st (afterNegotiation p file url key timeout rejection es out s)).
Proof.
  intros Hs. unfold afterNegotiation. simpl.
  pose proof (reachable_progressed file es s Hs) as Hp.
  destruct rejection as [m|]; simpl; [by constructor|].
  destruct (apiAnswer out); simpl; by constructor.
Qed.

Lemma reachable_afterNegotiationLocal p file url key x es out s :
  Reachable s →
  Reachable (st (afterNegotiationLocal p file url key x es out s)).
Proof.
  intros Hs. destruct x; [by apply reachable_afterNegotiation..|].
  simpl. by constructor.
Qed.

(** Once the new task is in the queue, everything an attempt does to the
    queue keeps it reachable. *)
Lemma reachable_attempt prod p file (net : Net (Xhr prod)) s :
  validateFile p file = None →
  Reachable (s ++ [newUpload file]) →
  Reachable (st (uploadFile prod p file net s)).
Proof.
  intros Hvalid Hs1.
  destruct prod; simpl in net; simpl.
  - rewrite uploadFileS3_run. unfold attemptS3. rewrite Hvalid. cbn [st pre].
    destruct (apiAnswer (negotiate net)) as [v|m]; [|by constructor].
    destruct v; try (by constructor).
    destruct (negb _ || negb _); [by constructor|].
    by apply reachable_afterNegotiation.
  - rewrite uploadFileLocal_run. unfold attemptLocal. rewrite Hvalid. cbn [st pre].
    destruct (apiAnswer (negotiate net)) as [v|m]; [|by constructor].
    destruct v; try (by constructor); by apply reachable_afterNegotiationLocal.
Qed.

(** Uploading a file that is not in the queue keeps the queue reachable. *)
Lemma reachable_uploadFile prod p file (net : Net (Xhr prod)) s :
  Reachable s → ref file ∉ taskRefs s →
  Reachable (st (uploadFile prod p file net s)).
Proof.
  intros Hs Hfresh. destruct (validateFile p file) as [m|] eqn:Hv.
  - by rewrite (uploadFile_invalid prod p file net s m Hv).
  - apply reachable_attempt; [done|]. by constructor.
Qed.

Lemma retryUpload_run prod p file (net : Net (Xhr prod)) s :
  retryUpload prod p file net s
  = uploadFile prod p file net (filter (λ upload, ¬ sameFile file upload) s).
Proof. unfold retryUpload. by rewrite run_modify. Qed.

Lemma filter_none {A} (P : A → Prop) `{!∀ x, Decision (P x)} (l : list A) :
  Forall (λ x, ¬ P x) l → filter P l = [].
Proof.
  induction 1 as [|x l Hx _ IH]; [done|].
  by rewrite filter_cons_False.
Qed.

(** C7. In every reachable queue each file has at most one task, and a
    retry keeps it so: it first removes the file's task and then runs the
    transport for the same file on the queue without it, from the
    validation and step 1 on, exactly as a first attempt would; afterwards
    the file has no task (validation failed) or one. *)
Theorem retry_keeps_one_task_per_file prod (p : Props) (file : File)
    (net : Net (Xhr prod)) (s : Uploads) :
  Reachable s →
  let r := retryUpload prod p file net s in
  NoDup (taskRefs s)
  ∧ r = uploadFile prod p file net (filter (λ upload, ¬ sameFile file upload) s)
  ∧ trace r = trace (uploadFile prod p file net [])
  ∧ Reachable (st r)
  ∧ NoDup (taskRefs (st r))
  ∧ filter (λ f, ref f = ref file) (taskFiles (st r)) = queuedFiles p file.
Proof.
  intros Hs r. subst r. rewrite retryUpload_run.
  set (s' := filter (λ upload, ¬ sameFile file upload) s).
  assert (Hr : Reachable (st (uploadFile prod p file net s'))).
  { destruct (validateFile p file) as [m|] eqn:Hv.
    - rewrite (uploadFile_invalid prod p file net s' m Hv). by constructor.
    - apply reachable_attempt; [done|]. by constructor. }
  destruct (uploadFile_facts prod p file net s') as (_ & Hfiles & Htrace).
  split_and!; try done.
  - by apply reachable_one_task_per_file.
  - by apply reachable_one_task_per_file.
  - rewrite Hfiles, filter_app, (filter_none _ (taskFiles s')).
    + simpl. unfold queuedFiles. destruct (validateFile p file); [done|].
      by rewrite filter_cons_True by done.
    + apply Forall_forall. intros f Hf Href.
      apply (taskRefs_removed file s). unfold taskRefs. fold s'.
      rewrite <- Href. by apply list_elem_of_fmap_2.
Qed.

Lemma retry_keeps_one_task_per_file_witness :
  let failedOnce := st (uploadFile true (defaultProps "p1") clasp (storageTimeout "k2") []) in
  Upload.status <$> failedOnce = [Error]
  ∧ Upload.status <$> st (retryUpload true (defaultProps "p1") clasp
                            (storageOk "k3" "img-3") failedOnce) = [Success]
  ∧ NoDup (taskRefs (st (retryUpload true (defaultProps "p1") clasp
                           (storageOk "k3" "img-3") failedOnce))).
Proof.
  split_and!; [reflexivity | reflexivity |].
  assert (Hreach : Reachable
            (st (uploadFile true (defaultProps "p1") clasp (storageTimeout "k2") []))).
  { apply reachable_uploadFile; [constructor | apply not_elem_of_nil]. }
  destruct (retry_keeps_one_task_per_file true (defaultProps "p1") clasp
              (storageOk "k3" "img-3") _ Hreach) as (_ & _ & _ & _ & Hone & _).
  exact Hone.
Defined.

(** A batch of freshly selected files (new [File] objects, none of them in
    the queue) keeps the queue reachable, and so does a dismissal and the
    clean-up timer. *)
Lemma reachable_uploadEach prod p (batch : list (File * Net (Xhr prod))) s :
  Reachable s →
  NoDup (ref <$> batch.*1) →
  (∀ f, f ∈ batch.*1 → ref f ∉ taskRefs s) →
  Reachable (st (uploadEach prod p batch s)).
Proof.
  revert s. induction batch as [|x rest IH]; intros s Hs Hnodup Hfresh; [done|].
  rewrite uploadEach_cons. cbn [st pre].
  rewrite !fmap_cons in Hnodup. apply NoDup_cons in Hnodup as [Hx Hrest].
  apply IH; [|done|].
  - apply reachable_uploadFile; [done|]. apply Hfresh. rewrite fmap_cons. left.
  - intros f Hf.
    destruct (uploadFile_facts prod p x.1 x.2 s) as (_ & Hfiles & _).
    unfold taskRefs. rewrite Hfiles, fmap_app.
    apply not_elem_of_app. split.
    + apply Hfresh. rewrite fmap_cons. by right.
    + unfold queuedFiles. destruct (validateFile p x.1); [apply not_elem_of_nil|].
      intros Hin%list_elem_of_singleton. apply Hx. rewrite <- Hin.
      by apply list_elem_of_fmap_2.
Qed.

Lemma reachable_handleFiles prod p (batch : list (File * Net (Xhr prod))) s :
  Reachable s →
  NoDup (ref <$> batch.*1) →
  (∀ f, f ∈ batch.*1 → ref f ∉ taskRefs s) →
  Reachable (st (handleFiles prod p batch s)).
Proof.
  intros Hs Hnodup Hfresh. rewrite handleFiles_run.
  destruct (decide _); [done|]. by apply reachable_uploadEach.
Qed.

Lemma reachable_removeUpload file s :
  Reachable s → Reachable (st (removeUpload file s)) ∧ Reachable (st (onCleanupTimer file s)).
Proof. intros Hs. split; by constructor. Qed.

Import Gallery.

(** ** The gallery *)

Lemma handleSetPrimary_run productId imageId out s :
  handleSetPrimary productId imageId out s =
  match apiAnswer out with
  | Resolved _ =>
      MkRun (Resolved ()) (setImages (promoted imageId (images s)) s)
        (gatewayTrace (promoteRequest productId imageId) out
           ++ [EvImagesChange (promoted imageId (images s))])
  | Rejected _ =>
      MkRun (Resolved ()) (setError (Some (MsgText "Failed to set primary image")) s)
        (gatewayTrace (promoteRequest productId imageId) out)
  end.
Proof.
  unfold handleSetPrimary. autorewrite with run. rewrite run_apiRequest.
  fold (promoteRequest productId imageId).
  destruct (apiAnswer out) as [v|m].
  - by autorewrite with run.
  - rewrite catching_rejected. unfold pre. simpl. by rewrite app_nil_r.
Qed.

Lemma handleDelete_run productId imageId captured out s :
  handleDelete productId imageId captured out s =
  match apiAnswer out with
  | Resolved _ =>
      let updatedImages := filter (λ img, id img ≠ imageId) captured in
      MkRun (Resolved ()) (setIsDeleting None (setImages updatedImages s))
        (gatewayTrace (deleteRequest productId imageId) out
           ++ [EvImagesChange updatedImages])
  | Rejected _ =>
      MkRun (Resolved ())
        (setIsDeleting None (setError (Some (MsgText "Failed to delete image")) s))
        (gatewayTrace (deleteRequest productId imageId) out)
  end.
Proof.
  unfold handleDelete. rewrite run_modify, run_bind, run_try, run_apiRequest.
  fold (deleteRequest productId imageId).
  destruct (apiAnswer out) as [v|m].
  - rewrite catching_pre. simpl. by rewrite app_nil_r.
  - rewrite catching_rejected. simpl. by rewrite !app_nil_r.
Qed.

Lemma mapM_defined (draft : list ProductImage) :
  mapM (λ entry : option ProductImage, entry) (Some <$> draft) = Some draft.
Proof.
  apply mapM_Some. induction draft as [|img draft IH]; by constructor.
Qed.

Lemma handleSaveReorder_run productId out s draft :
  reorderImages s = Some <$> draft →
  handleSaveReorder productId out s =
  match apiAnswer out with
  | Resolved _ =>
      MkRun (Resolved ()) (setIsReordering false (setImages (renumbered draft) s))
        (gatewayTrace (reorderRequest productId (id <$> draft)) out
           ++ [EvImagesChange (renumbered draft)])
  | Rejected _ =>
      MkRun (Resolved ()) (setError (Some (MsgText "Failed to reorder images")) s)
        (gatewayTrace (reorderRequest productId (id <$> draft)) out)
  end.
Proof.
  intros Hdraft. unfold handleSaveReorder. rewrite run_try, run_gets, Hdraft.
  cbv beta. unfold definedEntries. rewrite mapM_defined, run_ret, run_apiRequest.
  fold (reorderRequest productId (id <$> draft)).
  destruct (apiAnswer out) as [v|m].
  - rewrite catching_pre. done.
  - rewrite catching_rejected. unfold pre. simpl. by rewrite app_nil_r.
Qed.

Lemma filter_all {A} (P : A → Prop) `{!∀ x, Decision (P x)} (l : list A) :
  Forall P l → filter P l = l.
Proof.
  induction 1 as [|x l Hx _ IH]; [done|].
  by rewrite filter_cons_True, IH.
Qed.

(** With unique ids, the image with a given id splits the sequence, and no
    other image has that id. *)
Lemma split_at_id imageId (imgs : list ProductImage) :
  NoDup (id <$> imgs) → imageId ∈ id <$> imgs →
  ∃ before img after,
    imgs = before ++ img :: after ∧ id img = imageId
    ∧ Forall (λ other, id other ≠ imageId) before
    ∧ Forall (λ other, id other ≠ imageId) after.
Proof.
  intros Hnodup (img & -> & Hin)%list_elem_of_fmap.
  apply list_elem_of_split in Hin as (before & after & ->).
  exists before, img, after. split_and!; try done.
  - rewrite fmap_app, fmap_cons in Hnodup.
    apply NoDup_app in Hnodup as (_ & Hdisj & _).
    apply Forall_forall. intros other Hother Heq.
    apply (Hdisj (id other)); [by apply list_elem_of_fmap_2|].
    rewrite Heq. apply list_elem_of_here.
  - rewrite fmap_app, fmap_cons in Hnodup.
    apply NoDup_app in Hnodup as (_ & _ & Hcons).
    apply NoDup_cons in Hcons as [Hnotin _].
    apply Forall_forall. intros other Hother Heq.
    apply Hnotin. rewrite <- Heq. by apply list_elem_of_fmap_2.
Qed.

Lemma promoted_spec imageId imgs :
  (∀ img, img ∈ promoted imageId imgs → (is_main img = true ↔ id img = imageId))
  ∧ id <$> promoted imageId imgs = id <$> imgs
  ∧ withIsMain false <$> promoted imageId imgs = withIsMain false <$> imgs
  ∧ length (filter (λ img, is_main img = true) (promoted imageId imgs))
    = length (filter (λ img, id img = imageId) imgs).
Proof.
  unfold promoted. split_and!.
  - intros img (orig & -> & _)%list_elem_of_fmap. simpl.
    by rewrite bool_decide_eq_true.
  - rewrite <- list_fmap_compose. by apply list_fmap_ext.
  - rewrite <- list_fmap_compose. by apply list_fmap_ext.
  - induction imgs as [|img imgs IH]; [done|].
    rewrite fmap_cons, !filter_cons. simpl.
    destruct (decide (id img = imageId)) as [Heq|Hne].
    + rewrite (bool_decide_eq_true_2 _ Heq). simpl. by rewrite IH.
    + rewrite (bool_decide_eq_false_2 _ Hne). simpl. by rewrite IH.
Qed.

(** C5. When the promotion request resolves, the sequence handed to the
    owner is the old one with [is_main] rewritten: true on the images whose
    id is the target, false on all others, everything else and the order
    kept; with unique ids and the target in the gallery, exactly one image
    is primary. When the request is thrown, the sequence is left as it was
    and the error is surfaced. *)
Theorem promote_sets_exactly_target (productId imageId : string)
    (out : Http.FetchOutcome) (s : State) :
  let r := handleSetPrimary productId imageId out s in
  match apiAnswer out with
  | Resolved _ =>
      images (st r) = promoted imageId (images s)
      ∧ (∀ img, img ∈ images (st r) → (is_main img = true ↔ id img = imageId))
      ∧ id <$> images (st r) = id <$> images s
      ∧ withIsMain false <$> images (st r) = withIsMain false <$> images s
      ∧ (NoDup (id <$> images s) → imageId ∈ id <$> images s →
         ∃ before target after,
           images (st r) = before ++ target :: after
           ∧ id target = imageId ∧ is_main target = true
           ∧ Forall (λ img, is_main img = false) (before ++ after))
      ∧ error (st r) = error s
      ∧ trace r = gatewayTrace (promoteRequest productId imageId) out
                    ++ [EvImagesChange (images (st r))]
  | Rejected _ =>
      images (st r) = images s
      ∧ error (st r) = Some (MsgText "Failed to set primary image")
      ∧ trace r = gatewayTrace (promoteRequest productId imageId) out
  end
  ∧ isReordering (st r) = isReordering s
  ∧ reorderImages (st r) = reorderImages s.
Proof.
  intros r. subst r. rewrite handleSetPrimary_run.
  destruct (apiAnswer out) as [v|m]; simpl; [|done].
  destruct (promoted_spec imageId (images s)) as (Hmain & Hids & Hrest & _).
  split_and!; try done.
  intros Hnodup Hin.
  destruct (split_at_id imageId (images s) Hnodup Hin)
    as (before & img & after & Himgs & Hid & Hbefore & Hafter).
  exists (promoted imageId before), (withIsMain true img), (promoted imageId after).
  split_and!.
  - rewrite Himgs. unfold promoted. rewrite fmap_app, fmap_cons.
    by rewrite (bool_decide_eq_true_2 _ Hid).
  - done.
  - done.
  - apply Forall_app. unfold promoted. split; apply Forall_fmap;
      (eapply Forall_impl; [eassumption|]); intros other Hother; simpl;
      by apply bool_decide_eq_false_2.
Qed.

Lemma promote_sets_exactly_target_witness :
  is_main <$> images (st (handleSetPrimary "p1" "c" accepted (viewing fourImages)))
  = [false; false; true; false].
Proof.
  destruct (promote_sets_exactly_target "p1" "c" accepted (viewing fourImages))
    as [(Himgs & _) _].
  rewrite Himgs. reflexivity.
Defined.

Lemma filter_split imageId (before after : list ProductImage) img :
  id img = imageId →
  Forall (λ other, id other ≠ imageId) before →
  Forall (λ other, id other ≠ imageId) after →
  filter (λ other, id other ≠ imageId) (before ++ img :: after) = before ++ after.
Proof.
  intros Hid Hbefore Hafter.
  rewrite filter_app, filter_cons_False by (intros Hne; by apply Hne).
  by rewrite !filter_all.
Qed.

(** C6. A delete whose request resolves hands the owner the list its
    render saw without the target: alone, that removes exactly the target
    and keeps the others in their order. But the list is the one captured
    when the delete was confirmed, not the current one: when a second
    delete, confirmed while the first is in flight, resolves after it, the
    owner is handed the captured list without the second image only, and
    the first image, deleted on the backend, is back in the gallery. One
    entry is gone where two were deleted. *)
Theorem overlapping_deletes_bring_an_image_back (productId first second : string)
    (out1 out2 : Http.FetchOutcome) (s : State) (v1 v2 : Json) :
  NoDup (id <$> images s) →
  first ∈ id <$> images s → second ∈ id <$> images s → first ≠ second →
  apiAnswer out1 = Resolved v1 → apiAnswer out2 = Resolved v2 →
  let captured := images s in
  let r1 := handleDelete productId first captured out1 s in
  let r2 := handleDelete productId second captured out2 (st r1) in
  (∃ before target after,
     images s = before ++ target :: after
     ∧ id target = first
     ∧ images (st r1) = before ++ after
     ∧ first ∉ id <$> images (st r1))
  ∧ images (st r2) = filter (λ img, id img ≠ second) (images s)
  ∧ first ∈ id <$> images (st r2)
  ∧ length (images s) = S (length (images (st r2)))
  ∧ trace r2 = gatewayTrace (deleteRequest productId second) out2
                 ++ [EvImagesChange (images (st r2))]
  ∧ isDeleting (st r2) = None.
Proof.
  intros Hnodup Hfirst Hsecond Hne Hout1 Hout2 captured r1 r2. subst captured r1 r2.
  rewrite !handleDelete_run, Hout1, Hout2. cbn [st trace images setImages setIsDeleting].
  destruct (split_at_id first (images s) Hnodup Hfirst)
    as (before & img & after & Himgs & Hid & Hbefore & Hafter).
  destruct (split_at_id second (images s) Hnodup Hsecond)
    as (before' & img' & after' & Himgs' & Hid' & Hbefore' & Hafter').
  assert (Hone : filter (λ other, id other ≠ first) (images s) = before ++ after).
  { rewrite Himgs at 1. by apply filter_split. }
  assert (Htwo : filter (λ other, id other ≠ second) (images s) = before' ++ after').
  { rewrite Himgs' at 1. by apply filter_split. }
  split_and!; try done.
  - exists before, img, after. rewrite Hone. split_and!; try done.
    intros (other & Hother & Hmem)%list_elem_of_fmap.
    apply elem_of_app in Hmem as [Hmem|Hmem].
    + by apply (proj1 (Forall_forall _ _) Hbefore other Hmem).
    + by apply (proj1 (Forall_forall _ _) Hafter other Hmem).
  - apply list_elem_of_fmap. exists img. split; [done|].
    apply list_elem_of_filter. split; [congruence|].
    rewrite Himgs. apply elem_of_app. right. apply list_elem_of_here.
  - rewrite Htwo, Himgs', !length_app. simpl. lia.
Qed.

Lemma overlapping_deletes_bring_an_image_back_witness :
  let r1 := handleDelete "p1" "b" fourImages accepted (viewing fourImages) in
  let r2 := handleDelete "p1" "c" fourImages accepted (st r1) in
  id <$> images (st r1) = ["a"; "c"; "d"]
  ∧ id <$> images (st r2) = ["a"; "b"; "d"].
Proof.
  assert (Hnodup : NoDup (id <$> images (viewing fourImages))).
  { apply (bool_decide_unpack _). by vm_compute. }
  assert (Hb : "b" ∈ id <$> images (viewing fourImages)).
  { apply (bool_decide_unpack _). by vm_compute. }
  assert (Hc : "c" ∈ id <$> images (viewing fourImages)).
  { apply (bool_decide_unpack _). by vm_compute. }
  assert (Hne : "b" ≠ "c") by discriminate.
  destruct (overlapping_deletes_bring_an_image_back "p1" "b" "c" accepted accepted
              (viewing fourImages) (JObj ∅) (JObj ∅) Hnodup Hb Hc Hne eq_refl eq_refl)
    as (_ & Himgs & _).
  split; [reflexivity|].
  refine (eq_trans (f_equal (fmap id) Himgs) _). by vm_compute.
Defined.

Lemma renumbered_spec (draft : list ProductImage) :
  (∀ i, renumbered draft !! i = withDisplayOrder (Z.of_nat i + 1) <$> draft !! i)
  ∧ display_order <$> renumbered draft = seqZ 1 (Z.of_nat (length draft))
  ∧ id <$> renumbered draft = id <$> draft
  ∧ withDisplayOrder 0 <$> renumbered draft = withDisplayOrder 0 <$> draft.
Proof.
  unfold renumbered. split_and!.
  - intros i. by rewrite list_lookup_imap.
  - rewrite fmap_imap. unfold seqZ. rewrite Nat2Z.id.
    by rewrite <- (imap_seq_0 draft (λ i, Z.of_nat i + 1)).
  - rewrite fmap_imap, <- imap_const. done.
  - rewrite fmap_imap, <- imap_const. done.
Qed.

(** C4. In reorder mode, with a draft of images: a commit that resolves
    sends the draft's ids in the draft's order, replaces the owner's
    sequence by the draft with [display_order] set to 1, 2, ..., N by
    position (nothing else changed), and leaves reorder mode, the gallery
    staying on the page. A commit that is thrown sends the same request,
    leaves the owner's sequence alone and sets the error; the handler
    itself does not touch the draft, but the error it sets makes the modal's
    next render put the error panel where the gallery was, and with the
    gallery goes its state: reorder mode is left and the draft is gone. *)
Theorem failed_commit_discards_the_draft (productId : string)
    (out : Http.FetchOutcome) (s : State) (draft : list ProductImage) :
  isReordering s = true → reorderImages s = Some <$> draft → errorShown s = false →
  let r := handleSaveReorder productId out s in
  match apiAnswer out with
  | Resolved _ =>
      images (st r) = renumbered draft
      ∧ (∀ i, images (st r) !! i = withDisplayOrder (Z.of_nat i + 1) <$> draft !! i)
      ∧ display_order <$> images (st r) = seqZ 1 (Z.of_nat (length draft))
      ∧ id <$> images (st r) = id <$> draft
      ∧ withDisplayOrder 0 <$> images (st r) = withDisplayOrder 0 <$> draft
      ∧ isReordering (st r) = false
      ∧ error (st r) = error s
      ∧ trace r = gatewayTrace (reorderRequest productId (id <$> draft)) out
                    ++ [EvImagesChange (images (st r))]
      ∧ afterRender (st r) = st r
  | Rejected _ =>
      trace r = gatewayTrace (reorderRequest productId (id <$> draft)) out
      ∧ images (st r) = images s
      ∧ error (st r) = Some (MsgText "Failed to reorder images")
      ∧ isReordering (st r) = true
      ∧ reorderImages (st r) = Some <$> draft
      ∧ errorShown (st r) = true
      ∧ isReordering (afterRender (st r)) = false
      ∧ reorderImages (afterRender (st r)) = []
      ∧ images (afterRender (st r)) = images s
      ∧ error (afterRender (st r)) = Some (MsgText "Failed to reorder images")
  end.
Proof.
  intros Hmode Hdraft Hshown r. subst r.
  rewrite (handleSaveReorder_run _ _ _ draft Hdraft).
  destruct (apiAnswer out) as [v|m]; simpl; [|done].
  destruct (renumbered_spec draft) as (Hlookup & Horder & Hids & Hrest).
  split_and!; try done.
  unfold afterRender, errorShown in *. simpl. by destruct (error s) as [e|]; [rewrite Hshown|].
Qed.

Lemma failed_commit_discards_the_draft_witness :
  let draft := [image "b" false 2; image "c" false 3; image "a" true 1; image "d" false 4] in
  let s := Gallery.setIsReordering true
             (Gallery.setReorderImages (Some <$> draft) (viewing fourImages)) in
  let r := handleSaveReorder "p1" refused s in
  reorderImages (st r) = Some <$> draft
  ∧ isReordering (afterRender (st r)) = false
  ∧ reorderImages (afterRender (st r)) = [].
Proof.
  intros draft s r.
  pose proof (failed_commit_discards_the_draft "p1" refused s draft
                eq_refl eq_refl eq_refl) as Hcommit.
  vm_compute apiAnswer in Hcommit.
  destruct Hcommit as (_ & _ & _ & _ & Hkept & _ & Hmode & Hgone & _).
  split_and!; [exact Hkept | exact Hmode | exact Hgone].
Defined.

(** *** Moves within the draft *)

Lemma spliceStart_in_range {A} (l : list A) (i : nat) :
  (i ≤ length l)%nat → spliceStart l (Z.of_nat i) = i.
Proof.
  intros Hi. unfold spliceStart.
  destruct (Z.ltb_spec (Z.of_nat i) 0); lia.
Qed.

Lemma moved_in_range (draft : list (option ProductImage)) (fromIndex toIndex : nat) entry :
  draft !! fromIndex = Some entry → (toIndex < length draft)%nat →
  moved draft (Z.of_nat fromIndex) (Z.of_nat toIndex)
  = take toIndex (delete fromIndex draft) ++ entry :: drop toIndex (delete fromIndex draft).
Proof.
  intros Hfrom Hto.
  pose proof (lookup_lt_Some _ _ _ Hfrom) as Hlt.
  unfold moved, spliceOut, spliceIn.
  rewrite (spliceStart_in_range draft fromIndex) by lia.
  rewrite <- delete_take_drop, Hfrom. simpl.
  rewrite spliceStart_in_range; [done|].
  rewrite length_delete by eauto. lia.
Qed.

Lemma onDrop_run data index s :
  onDrop data index s =
  MkRun (Resolved ())
    (if isReordering s then
       setReorderImages (moved (reorderImages s) (default 0 data) (Z.of_nat index)) s
     else s) [].
Proof.
  unfold onDrop. rewrite run_gets. destruct (isReordering s); [|done].
  unfold moveImage. by rewrite run_gets.
Qed.

(** C8. In reorder mode, dropping the tile dragged from one position of the
    draft onto another takes the dragged entry out and puts it back in at
    the drop index, the other entries keeping their order. No drop, and no
    cancel, sends anything or touches the owner's sequence; cancel empties
    the draft and leaves reorder mode. *)
Theorem move_rearranges_draft_only (s : State) (fromIndex toIndex : nat) :
  isReordering s = true →
  (fromIndex < length (reorderImages s))%nat →
  (toIndex < length (reorderImages s))%nat →
  let r := onDrop (Some (Z.of_nat fromIndex)) toIndex s in
  let others := delete fromIndex (reorderImages s) in
  (∃ entry,
     reorderImages s !! fromIndex = Some entry
     ∧ reorderImages (st r) = take toIndex others ++ entry :: drop toIndex others
     ∧ reorderImages (st r) !! toIndex = Some entry
     ∧ delete toIndex (reorderImages (st r)) = others)
  ∧ reorderImages (st r) ≡ₚ reorderImages s
  ∧ isReordering (st r) = true
  ∧ (∀ data index s',
       let r' := onDrop data index s' in
       images (st r') = images s' ∧ error (st r') = error s' ∧ trace r' = [])
  ∧ (∀ s',
       let c := handleCancelReorder s' in
       reorderImages (st c) = [] ∧ isReordering (st c) = false
       ∧ images (st c) = images s' ∧ error (st c) = error s' ∧ trace c = []).
Proof.
  intros Hmode Hfrom Hto r others. subst r others.
  destruct (lookup_lt_is_Some_2 _ _ Hfrom) as [entry Hentry].
  rewrite onDrop_run, Hmode.
  change (default 0 (Some (Z.of_nat fromIndex))) with (Z.of_nat fromIndex).
  cbn [st trace reorderImages setReorderImages isReordering].
  rewrite (moved_in_range _ _ _ entry Hentry Hto).
  set (others := delete fromIndex (reorderImages s)).
  assert (Hlen : (toIndex ≤ length others)%nat).
  { unfold others. rewrite length_delete by eauto. lia. }
  assert (Htake : length (take toIndex others) = toIndex).
  { rewrite length_take. lia. }
  split_and!.
  - exists entry. split_and!; try done.
    + rewrite lookup_app_r by lia. by rewrite Htake, Nat.sub_diag.
    + rewrite <- Htake at 1. by rewrite delete_middle, take_drop.
  - rewrite <- Permutation_middle, take_drop. unfold others.
    symmetry. by apply delete_Permutation.
  - done.
  - intros data index s'. rewrite onDrop_run. by destruct (isReordering s').
  - done.
Qed.

Lemma move_rearranges_draft_only_witness :
  let s := st (handleStartReorder (viewing fourImages)) in
  reorderImages (st (onDrop (Some 0) 2 s))
  = Some <$> [image "b" false 2; image "c" false 3; image "a" true 1; image "d" false 4].
Proof.
  intros s.
  assert (Hfrom : (0 < length (reorderImages s))%nat) by (vm_compute; lia).
  assert (Hto : (2 < length (reorderImages s))%nat) by (vm_compute; lia).
  destruct (move_rearranges_draft_only s 0 2 eq_refl Hfrom Hto)
    as ((entry & Hentry & Hdraft & _) & _).
  refine (eq_trans Hdraft _).
  vm_compute in Hentry. injection Hentry as <-. reflexivity.
Defined.

(** The scenario of the specification: a gallery of four, the first image
    moved to the third place. Committing numbers the new order 1 to 4;
    cancelling instead leaves the sequence and its numbers as they were; a
    commit that is refused ends, once the modal has rendered, with the
    gallery out of reorder mode, the sequence as it was and the error set. *)
Example reorder_then_commit_or_cancel :
  let dragged := st (onDrop (Some 0) 2 (st (handleStartReorder (viewing fourImages)))) in
  (λ img, (id img, display_order img)) <$> images (st (handleSaveReorder "p1" accepted dragged))
  = [("b", 1); ("c", 2); ("a", 3); ("d", 4)]
  ∧ isReordering (st (handleSaveReorder "p1" accepted dragged)) = false
  ∧ st (handleCancelReorder dragged) = viewing fourImages
  ∧ afterRender (st (handleSaveReorder "p1" refused dragged))
    = Gallery.setError (Some (MsgText "Failed to reorder images")) (viewing fourImages).
Proof. split_and!; vm_compute; reflexivity. Qed.

(** A drop whose source index is outside the draft leaves [undefined] in the
    draft, and the render that follows throws on it. *)
Example drop_from_outside_the_draft :
  let s := st (handleStartReorder (viewing [image "a" true 1; image "b" false 2])) in
  reorderImages (st (onDrop (Some 7) 0 s))
  = [None; Some (image "a" true 1); Some (image "b" false 2)]
  ∧ tileKeys (st (onDrop (Some 7) 0 s)) = Rejected MsgTypeError.
Proof. split; vm_compute; reflexivity. Qed.

(** ** The session layer *)

Lemma isAdmin_spec role : AuthService.isAdmin role = true ↔ role = Some (JStr "admin").
Proof.
  unfold AuthService.isAdmin. destruct role as [[| | |s| |]|]; try (split; done).
  rewrite String.eqb_eq. split; [by intros -> | by intros [= ->]].
Qed.

Lemma verifyAuthentication_run {S} out (s : S) :
  AuthService.verifyAuthentication out s =
  MkRun (Resolved
           match out with
           | Http.Responded r =>
               if Http.ok r then
                 match Http.bodyJson r with
                 | Some userData =>
                     if AuthService.isAdmin (get_field "role" userData) then
                       {| AuthService.isAuthenticated := true;
                          AuthService.user := Some userData |}
                     else AuthService.unauthenticated
                 | None => AuthService.unauthenticated
                 end
               else AuthService.unauthenticated
           | Http.Failed _ => AuthService.unauthenticated
           end) s [].
Proof.
  unfold AuthService.verifyAuthentication. rewrite run_try.
  destruct out as [r|reason]; [|done]. simpl. rewrite run_ret.
  destruct (Http.ok r); [|done].
  unfold AuthService.awaitJson. destruct (Http.bodyJson r) as [userData|]; [|done].
  rewrite run_ret. destruct userData; try done; simpl; rewrite run_ret;
    by destruct (AuthService.isAdmin _).
Qed.

(** The two ways the profile request can go. *)
Lemma verifyAuthentication_cases out :
  (∃ userData,
      adminProfile out userData
      ∧ truthy userData = true
      ∧ (∀ u, adminProfile out u → u = userData)
      ∧ ∀ S (s : S), AuthService.verifyAuthentication out s
          = MkRun (Resolved {| AuthService.isAuthenticated := true;
                               AuthService.user := Some userData |}) s [])
  ∨ ((¬ ∃ userData, adminProfile out userData)
     ∧ ∀ S (s : S), AuthService.verifyAuthentication out s
         = MkRun (Resolved AuthService.unauthenticated) s []).
Proof.
  assert (Hrun := λ S (s : S), verifyAuthentication_run out s).
  unfold adminProfile. destruct out as [r|reason]; simpl in Hrun.
  2: { right. split; [|done]. intros (? & ? & [=] & _). }
  destruct (Http.ok r) eqn:Hok.
  2: { right. split; [|done]. intros (? & ? & [= <-] & ? & _). congruence. }
  destruct (Http.bodyJson r) as [userData|] eqn:Hbody.
  2: { right. split; [|done]. intros (? & ? & [= <-] & _ & ? & _). congruence. }
  destruct (AuthService.isAdmin (get_field "role" userData)) eqn:Hrole.
  - left. apply isAdmin_spec in Hrole. exists userData. split_and!; [|by destruct userData| |done].
    + by exists r.
    + intros u (r' & [= <-] & _ & Hb & _). congruence.
  - right. split; [|done]. intros (u & r' & [= <-] & _ & Hb & Hr).
    rewrite Hbody in Hb. injection Hb as <-.
    apply isAdmin_spec in Hr. congruence.
Qed.

(** X1. [verifyAuthentication] never throws, whatever the profile request
    does, and says [isAuthenticated] exactly for a 2xx answer whose body
    parses to a value with [role === 'admin'], whatever its content type;
    the user it returns is then that body, and there is no user otherwise. A
    signed-in customer, a 401 and a network failure all read as not
    authenticated. *)
Theorem verifyAuthentication_admin_only {S} (out : Http.FetchOutcome) (s : S) :
  ∃ v, AuthService.verifyAuthentication out s = MkRun (Resolved v) s []
       ∧ (AuthService.isAuthenticated v = true ↔ ∃ userData, adminProfile out userData)
       ∧ (∀ userData, adminProfile out userData → AuthService.user v = Some userData)
       ∧ (AuthService.isAuthenticated v = false → AuthService.user v = None).
Proof.
  destruct (verifyAuthentication_cases out)
    as [(userData & Hadmin & _ & Honly & Hrun)|[Hno Hrun]];
    eexists; (split; [apply Hrun|]); simpl.
  - split_and!; [|by intros u ->%Honly|done].
    split; [|done]. intros _. by exists userData.
  - split_and!; [|intros u Hu; destruct Hno; by exists u|done].
    split; [done|]. intros Hex. by destruct Hno.
Qed.

(** X2. After the check run on mount the provider is never left loading,
    it never throws, and it holds a user, so that [isAuthenticated] is true,
    exactly when the profile answer is that of an admin; in every other case
    the user is [null]. *)
Theorem checkAuthentication_admin_only (out : Http.FetchOutcome) (s : AuthProvider.State) :
  let r := AuthProvider.checkAuthentication out s in
  res r = Resolved () ∧ trace r = []
  ∧ AuthProvider.isLoading (st r) = false
  ∧ (AuthProvider.isAuthenticated (st r) = true ↔ ∃ userData, adminProfile out userData)
  ∧ (∀ userData, adminProfile out userData → AuthProvider.user (st r) = Some userData)
  ∧ ((¬ ∃ userData, adminProfile out userData) → AuthProvider.user (st r) = None).
Proof.
  intros r. subst r. unfold AuthProvider.checkAuthentication.
  rewrite run_bind, run_try.
  destruct (verifyAuthentication_cases out)
    as [(userData & Hadmin & Htruthy & Honly & Hrun)|[Hno Hrun]];
    rewrite run_bind, Hrun; cbn [res st trace]; simpl.
  - rewrite Htruthy. simpl. unfold AuthProvider.isAuthenticated. simpl.
    split_and!; try done.
    + split; [|done]. intros _. by exists userData.
    + by intros u ->%Honly.
    + intros Hno. destruct Hno. by exists userData.
  - unfold AuthProvider.isAuthenticated. simpl. split_and!; try done.
    intros u Hu. destruct Hno. by exists u.
Qed.

(** ** The login promise *)

Lemma settle_outcome x s :
  LoginWithGoogle.outcome (LoginWithGoogle.settle x s)
  = match LoginWithGoogle.outcome s with
    | None => Some x
    | Some y => Some y
    end.
Proof. unfold LoginWithGoogle.settle. by destruct (LoginWithGoogle.outcome s) eqn:H. Qed.

Lemma settle_fields x s :
  LoginWithGoogle.listening (LoginWithGoogle.settle x s) = LoginWithGoogle.listening s
  ∧ LoginWithGoogle.polling (LoginWithGoogle.settle x s) = LoginWithGoogle.polling s
  ∧ LoginWithGoogle.closedHere (LoginWithGoogle.settle x s) = LoginWithGoogle.closedHere s.
Proof. unfold LoginWithGoogle.settle. by destruct (LoginWithGoogle.outcome s). Qed.


Lemma settles_rejected baseURL h s m s0 :
  LoginWithGoogle.outcome s0 = LoginWithGoogle.outcome s →
  LoginWithGoogle.listening s0 = false →
  (LoginWithGoogle.polling s0 = true → LoginWithGoogle.closedHere s0 = true) →
  settles baseURL h s (LoginWithGoogle.settle (Rejected m) s0).
Proof.
  intros Hout Hl Hp. unfold settles.
  destruct (settle_fields (Rejected m) s0) as (-> & -> & ->).
  rewrite settle_outcome, Hout. split_and!; try done.
  exists (Rejected m). split; [done|]. intros a [=].
Qed.

Lemma handleMessage_cases baseURL event s :
  let s' := LoginWithGoogle.handleMessage baseURL event s in
  s' = s ∨ settles baseURL (LoginWithGoogle.Posted event) s s'.
Proof.
  unfold LoginWithGoogle.handleMessage.
  destruct (LoginWithGoogle.listening s) eqn:Hl; simpl; [|by left].
  destruct (truthy_opt (LoginWithGoogle.data event)
            && from_option LoginWithGoogle.isObject false (LoginWithGoogle.data event)
            && truthy_opt (LoginWithGoogle.dataField "type" (LoginWithGoogle.data event)))
    eqn:Htyped; [by left|].
  destruct (String.eqb_spec (LoginWithGoogle.origin event) baseURL) as [Horigin|];
    simpl; [|by left].
  destruct (LoginWithGoogle.data event) as [d|] eqn:Hd; simpl in *; [|by left].
  destruct (truthy d) eqn:Htruthy; simpl in *; [|by left].
  set (onError := match get_field "error" d with
                  | Some e => _
                  | None => s
                  end).
  assert (Herror : onError = s
                   ∨ settles baseURL (LoginWithGoogle.Posted event) s onError).
  { subst onError. destruct (get_field "error" d) as [e|]; [|by left].
    destruct (truthy e); [|by left]. right. by apply settles_rejected. }
  clearbody onError.
  destruct (get_field "success" d) as [ok|] eqn:Hok; [|exact Herror].
  destruct (get_field "user" d) as [u|] eqn:Hu; [|exact Herror].
  destruct (truthy ok) eqn:Hokt; simpl; [|exact Herror].
  destruct (truthy u) eqn:Hut; simpl; [|exact Herror].
  right.
  destruct (AuthService.isAdmin (get_field "role" u)) eqn:Hrole; simpl;
    [|by apply settles_rejected].
  unfold settles.
  match goal with |- context [LoginWithGoogle.settle ?x ?s0] =>
    destruct (settle_fields x s0) as (-> & -> & ->); rewrite (settle_outcome x s0);
    simpl; split_and!; try done; exists x
  end.
  split; [done|]. intros a [= <-]. exists event.
  split; [done|]. split; [done|]. split; [done|].
  exists d, ok. simpl. rewrite Hd. by split_and!.
Qed.

Lemma step_cases baseURL s h :
  let s' := LoginWithGoogle.step baseURL s h in
  s' = s ∨ settles baseURL h s s'.
Proof.
  destruct h as [event|closedElsewhere|]; simpl.
  - apply handleMessage_cases.
  - unfold LoginWithGoogle.checkClosed.
    destruct (LoginWithGoogle.polling s); simpl; [|by left].
    destruct (LoginWithGoogle.closedHere s || closedElsewhere); [|by left].
    right. by apply settles_rejected.
  - right. by apply settles_rejected.
Qed.


Lemma tidy_start popupOpened : tidy (LoginWithGoogle.start popupOpened).
Proof. by destruct popupOpened. Qed.

Lemma tidy_step baseURL s h : tidy s → tidy (LoginWithGoogle.step baseURL s h).
Proof.
  intros Hs. destruct (step_cases baseURL s h) as [->|(Hl & Hp & _)]; [done|].
  by intros _.
Qed.

Lemma tidy_run baseURL hs s : tidy s → tidy (LoginWithGoogle.run baseURL hs s).
Proof.
  revert s. induction hs as [|h hs IH]; intros s Hs; [done|].
  apply IH. by apply tidy_step.
Qed.

Lemma step_settled baseURL s h x :
  LoginWithGoogle.outcome s = Some x →
  LoginWithGoogle.outcome (LoginWithGoogle.step baseURL s h) = Some x.
Proof.
  intros Hx. destruct (step_cases baseURL s h) as [->|(_ & _ & y & -> & _)]; [done|].
  by rewrite Hx.
Qed.

Lemma run_settled baseURL hs s x :
  LoginWithGoogle.outcome s = Some x →
  LoginWithGoogle.outcome (LoginWithGoogle.run baseURL hs s) = Some x.
Proof.
  revert s. induction hs as [|h hs IH]; intros s Hx; [done|].
  apply IH. by apply step_settled.
Qed.

Lemma run_app baseURL hs1 hs2 s :
  LoginWithGoogle.run baseURL (hs1 ++ hs2) s
  = LoginWithGoogle.run baseURL hs2 (LoginWithGoogle.run baseURL hs1 s).
Proof. apply foldl_app. Qed.

Lemma run_resolved_from_grant baseURL a hs s :
  LoginWithGoogle.outcome s = None →
  LoginWithGoogle.outcome (LoginWithGoogle.run baseURL hs s) = Some (Resolved a) →
  ∃ before event after,
    hs = before ++ LoginWithGoogle.Posted event :: after
    ∧ grants baseURL event a
    ∧ LoginWithGoogle.outcome (LoginWithGoogle.run baseURL before s) = None.
Proof.
  revert s. induction hs as [|h hs IH]; intros s Hnone Hres.
  - simpl in Hres. congruence.
  - simpl in Hres.
    destruct (LoginWithGoogle.outcome (LoginWithGoogle.step baseURL s h)) as [x|] eqn:Hstep.
    + pose proof (run_settled baseURL hs _ x Hstep) as Hkeep.
      fold (LoginWithGoogle.run baseURL hs (LoginWithGoogle.step baseURL s h)) in Hres.
      rewrite Hkeep in Hres. injection Hres as ->.
      destruct (step_cases baseURL s h) as [Heq|(_ & _ & y & Hy & Hfrom)].
      { rewrite Heq in Hstep. congruence. }
      rewrite Hnone, Hstep in Hy. injection Hy as <-.
      destruct (Hfrom a eq_refl) as (event & -> & _ & Hgrants).
      by exists [], event, hs.
    + destruct (IH _ Hstep Hres) as (before & event & after & -> & Hgrants & Hbefore).
      exists (h :: before), event, after. by split_and!.
Qed.

(** X3. [loginWithGoogle]: the promise resolves only through a message that
    grants: whatever is posted to the window, whenever the interval and the
    timer fire, a resolved promise carries the user and the token of a
    message from the backend's origin whose user has the admin role, and
    nothing earlier had settled the promise. *)
Theorem login_resolves_only_from_granting_message baseURL hs a :
  LoginWithGoogle.outcome (LoginWithGoogle.run baseURL hs (LoginWithGoogle.start true))
    = Some (Resolved a) →
  ∃ before event after,
    hs = before ++ LoginWithGoogle.Posted event :: after
    ∧ grants baseURL event a
    ∧ LoginWithGoogle.outcome
        (LoginWithGoogle.run baseURL before (LoginWithGoogle.start true)) = None.
Proof. by apply run_resolved_from_grant. Qed.

Lemma login_resolves_only_from_granting_message_witness :
  ∃ before event after,
    [LoginWithGoogle.Tick false;
     LoginWithGoogle.Posted (loginMessage "https://evil.example" "admin");
     LoginWithGoogle.Posted (loginMessage "https://localhost:8080" "admin");
     LoginWithGoogle.TimedOut]
    = before ++ LoginWithGoogle.Posted event :: after
    ∧ grants "https://localhost:8080" event
        {| LoginWithGoogle.success := true;
           LoginWithGoogle.user := profileOf "admin";
           LoginWithGoogle.csrfToken := Some (JStr "t0") |}
    ∧ LoginWithGoogle.outcome
        (LoginWithGoogle.run "https://localhost:8080" before (LoginWithGoogle.start true))
      = None.
Proof.
  apply (login_resolves_only_from_granting_message "https://localhost:8080").
  by vm_compute.
Defined.

(** X4. [loginWithGoogle] leaves nothing behind: however the promise came to
    be settled (popup blocked, a message, the popup closed, the timer), the
    [message] listener is off the window, and the interval is cleared at the
    latest by its next firing. *)
Theorem login_settled_cleans_up baseURL popupOpened hs closedElsewhere :
  let s := LoginWithGoogle.run baseURL hs (LoginWithGoogle.start popupOpened) in
  LoginWithGoogle.outcome s ≠ None →
  LoginWithGoogle.listening s = false
  ∧ LoginWithGoogle.polling
      (LoginWithGoogle.step baseURL s (LoginWithGoogle.Tick closedElsewhere)) = false.
Proof.
  intros s Hsettled.
  destruct (tidy_run baseURL hs _ (tidy_start popupOpened) Hsettled) as [Hl Hp].
  fold s in Hl, Hp. split; [done|].
  simpl. unfold LoginWithGoogle.checkClosed.
  destruct (LoginWithGoogle.polling s) eqn:Hpoll; simpl; [|done].
  rewrite (Hp eq_refl). simpl.
  by destruct (settle_fields
    (Rejected (MsgText "Authentication cancelled - popup was closed"))
    (LoginWithGoogle.removeListener (LoginWithGoogle.clearPolling s))) as (_ & -> & _).
Qed.

Lemma login_settled_cleans_up_witness :
  let s := LoginWithGoogle.run "https://localhost:8080"
             [LoginWithGoogle.Posted (loginMessage "https://localhost:8080" "customer")]
             (LoginWithGoogle.start true) in
  LoginWithGoogle.polling s = true
  ∧ LoginWithGoogle.listening s = false
  ∧ LoginWithGoogle.polling
      (LoginWithGoogle.step "https://localhost:8080" s (LoginWithGoogle.Tick false)) = false.
Proof.
  split; [by vm_compute|].
  apply (login_settled_cleans_up "https://localhost:8080" true
           [LoginWithGoogle.Posted (loginMessage "https://localhost:8080" "customer")]
           false).
  by vm_compute.
Defined.

(** X5. [loginWithGoogle] does not stay pending past its timer: once the
    five-minute timer has fired the promise is settled whatever else
    happened, and if nothing had settled it before, it is rejected with
    the timeout message. *)
Theorem login_settles_by_timeout baseURL before after :
  let waiting := LoginWithGoogle.run baseURL before (LoginWithGoogle.start true) in
  let s := LoginWithGoogle.run baseURL (before ++ LoginWithGoogle.TimedOut :: after)
             (LoginWithGoogle.start true) in
  LoginWithGoogle.outcome s
  = match LoginWithGoogle.outcome waiting with
    | None => Some (Rejected (MsgText "Authentication timeout"))
    | Some x => Some x
    end.
Proof.
  intros waiting s. subst s. rewrite run_app. fold waiting.
  change (LoginWithGoogle.run baseURL (LoginWithGoogle.TimedOut :: after) waiting)
    with (LoginWithGoogle.run baseURL after (LoginWithGoogle.onTimeout waiting)).
  assert (Hout : LoginWithGoogle.outcome (LoginWithGoogle.onTimeout waiting)
                 = match LoginWithGoogle.outcome waiting with
                   | None => Some (Rejected (MsgText "Authentication timeout"))
                   | Some x => Some x
                   end).
  { unfold LoginWithGoogle.onTimeout. by rewrite settle_outcome. }
  destruct (LoginWithGoogle.outcome waiting); by apply run_settled.
Qed.

(** X6. The provider's [login], on what [loginWithGoogle] settled to: the
    loading flag is down again either way; the user of the session becomes
    the one a granting message carried, a truthy value with the admin role,
    so the session counts as authenticated; a rejection (the popup blocked
    or closed, a refusal, the timeout) is thrown on to the caller with the
    user of the session left as it was. *)
Theorem login_sets_admin_user_or_rethrows baseURL popupOpened hs settled s :
  LoginWithGoogle.outcome
    (LoginWithGoogle.run baseURL hs (LoginWithGoogle.start popupOpened)) = Some settled →
  let r := AuthProvider.login settled s in
  AuthProvider.isLoading (st r) = false
  ∧ trace r = []
  ∧ match settled with
    | Resolved a =>
        res r = Resolved tt
        ∧ AuthProvider.user (st r) = Some (LoginWithGoogle.user a)
        ∧ AuthProvider.isAuthenticated (st r) = true
        ∧ AuthService.isAdmin (get_field "role" (LoginWithGoogle.user a)) = true
    | Rejected reason =>
        res r = Rejected reason
        ∧ AuthProvider.user (st r) = AuthProvider.user s
    end.
Proof.
  intros Hsettled r. subst r. destruct settled as [a|reason]; simpl; [|done].
  destruct popupOpened.
  - destruct (run_resolved_from_grant baseURL a hs (LoginWithGoogle.start true)
                eq_refl Hsettled)
      as (_ & event & _ & _ & Hgrants & _).
    destruct Hgrants as (_ & d & ok & _ & _ & _ & _ & _ & Hu & Hadmin & _).
    unfold AuthProvider.isAuthenticated. simpl. by split_and!.
  - by rewrite (run_settled baseURL hs (LoginWithGoogle.start false) _ eq_refl)
      in Hsettled.
Qed.

Lemma login_sets_admin_user_or_rethrows_witness :
  let r := AuthProvider.login
             (Resolved {| LoginWithGoogle.success := true;
                          LoginWithGoogle.user := profileOf "admin";
                          LoginWithGoogle.csrfToken := Some (JStr "t0") |})
             AuthProvider.initial in
  AuthProvider.isLoading (st r) = false
  ∧ trace r = []
  ∧ res r = Resolved tt
  ∧ AuthProvider.user (st r) = Some (profileOf "admin")
  ∧ AuthProvider.isAuthenticated (st r) = true
  ∧ AuthService.isAdmin (get_field "role" (profileOf "admin")) = true.
Proof.
  apply (login_sets_admin_user_or_rethrows "https://localhost:8080" true
           [LoginWithGoogle.Posted (loginMessage "https://localhost:8080" "admin")]
           (Resolved {| LoginWithGoogle.success := true;
                        LoginWithGoogle.user := profileOf "admin";
                        LoginWithGoogle.csrfToken := Some (JStr "t0") |})
           AuthProvider.initial).
  by vm_compute.
Defined.

(** ** One attempt and what it reports *)

Lemma reports_app t t' : reports (t ++ t') = reports t ++ reports t'.
Proof. apply omap_app. Qed.

Lemma timers_app t t' : timers (t ++ t') = timers t ++ timers t'.
Proof. apply omap_app. Qed.

Lemma puts_app t t' : puts (t ++ t') = puts t ++ puts t'.
Proof. apply omap_app. Qed.

Lemma gatewayTrace_silent req out :
  reports (gatewayTrace req out) = [] ∧ timers (gatewayTrace req out) = []
  ∧ puts (gatewayTrace req out) = [].
Proof. destruct out as [r|reason]; simpl; [by destruct (Http.status r =? 401)|done]. Qed.

Lemma progressed_nil file s : progressed file [] s = s.
Proof. done. Qed.

(** How an attempt ends: refused by validation, or marked. *)
Lemma attempt_cases prod p file (net : Net (Xhr prod)) s :
  let r := uploadFile prod p file net s in
  (∃ m, validateFile p file = Some m ∧ r = MkRun (Resolved ()) s [EvUploadError m])
  ∨ (validateFile p file = None ∧ marked file net s r).
Proof.
  assert (Hthrown : ∀ req out fulfilled m,
    marked file net s
      (pre (gatewayTrace req out)
         (pre [EvXhrDone file fulfilled] (failed file m (s ++ [newUpload file]))))).
  { intros req out fulfilled m. split; [done|]. exists []. split; [by left|].
    right. exists m.
    destruct (gatewayTrace_silent req out) as (Hr & Ht & _). simpl.
    by rewrite reports_app, timers_app, Hr, Ht. }
  assert (Hfail : ∀ req out m,
    marked file net s
      (pre (gatewayTrace req out) (failed file m (s ++ [newUpload file])))).
  { intros req out m. split; [done|]. exists []. split; [by left|]. right. exists m.
    destruct (gatewayTrace_silent req out) as (Hr & Ht & _). simpl.
    by rewrite reports_app, timers_app, Hr, Ht. }
  assert (Hafter : ∀ req out url key timeout rejection,
    marked file net s
      (pre (gatewayTrace req out)
         (afterNegotiation p file url key timeout rejection
            (progressEvents net) (confirm net) (s ++ [newUpload file])))).
  { intros req out url key timeout rejection. unfold afterNegotiation, marked.
    destruct (gatewayTrace_silent req out) as (Hr & Ht & _).
    destruct (gatewayTrace_silent (confirmRequest p key) (confirm net)) as (Hr' & Ht' & _).
    destruct rejection as [m|]; cbn [pre res st trace failed].
    - split; [done|]. exists (progressEvents net). split; [by right|]. right. exists m.
      by rewrite reports_app, timers_app, Hr, Ht.
    - destruct (apiAnswer (confirm net)) as [image|m]; cbn [pre res st trace failed];
        (split; [done|]); exists (progressEvents net); (split; [by right|]).
      + left. exists image, key.
        rewrite reports_app, timers_app, Hr, Ht. simpl.
        by rewrite reports_app, timers_app, Hr', Ht'.
      + right. exists m.
        rewrite reports_app, timers_app, Hr, Ht. simpl.
        by rewrite reports_app, timers_app, Hr', Ht'. }
  destruct prod; simpl in net; simpl.
  - rewrite uploadFileS3_run. unfold attemptS3.
    destruct (validateFile p file) as [m|]; [left; by exists m|]. right. split; [done|].
    destruct (apiAnswer (negotiate net)) as [v|m]; [|by apply Hfail].
    destruct v; try (by apply Hfail).
    destruct (negb _ || negb _); [by apply Hfail|]. by apply Hafter.
  - rewrite uploadFileLocal_run. unfold attemptLocal.
    destruct (validateFile p file) as [m|]; [left; by exists m|]. right. split; [done|].
    destruct (apiAnswer (negotiate net)) as [v|m]; [|by apply Hfail].
    unfold afterNegotiationLocal.
    destruct v; try (by apply Hfail);
      (destruct (xhr net); [by apply Hafter..|by apply Hthrown]).
Qed.

Lemma enqueued_file file es s :
  taskFiles (progressed file es (s ++ [newUpload file])) = taskFiles s ++ [file].
Proof. by rewrite taskFiles_progressed, taskFiles_app. Qed.

(** A queue that holds a file has a task of it. *)
Lemma tasksOf_nonempty file s : file ∈ taskFiles s → tasksOf file s ≠ [].
Proof.
  intros (upload & Hfile & Hin)%list_elem_of_fmap Hnil.
  assert (Hmem : upload ∈ tasksOf file s).
  { apply list_elem_of_filter. split; [|done]. unfold sameFile. by rewrite <- Hfile. }
  rewrite Hnil in Hmem. by apply elem_of_nil in Hmem.
Qed.

Lemma tasksOf_setSuccess file key s :
  Forall (λ upload, status upload = Success ∧ progress upload = 100
                    ∧ imageKey upload = key)
         (tasksOf file (setSuccess file key <$> s)).
Proof.
  apply Forall_forall. intros upload [Hsame Hin]%list_elem_of_filter.
  apply list_elem_of_fmap in Hin as (orig & -> & _).
  unfold setSuccess in *. by destruct (decide (sameFile file orig)).
Qed.

Lemma tasksOf_setError file m s :
  Forall (λ upload, status upload = Error ∧ Upload.error upload = Some m)
         (tasksOf file (Upload.setError file m <$> s)).
Proof.
  apply Forall_forall. intros upload [Hsame Hin]%list_elem_of_filter.
  apply list_elem_of_fmap in Hin as (orig & -> & _).
  unfold Upload.setError in *. by destruct (decide (sameFile file orig)).
Qed.

(** X7. One attempt of [uploadFile], over either transport and whatever the
    network does, never throws and reports to the owner exactly once: either
    one [onUploadComplete], and then the three-second clean-up timer is set
    and every task of the file shows success at 100 percent; or one
    [onUploadError], and then no timer is set and either validation refused
    the file, the queue being untouched, or every task of the file shows the
    error with the very message that was reported. *)
Theorem attempt_reports_exactly_once prod (p : Props) (file : File)
    (net : Net (Xhr prod)) (s : Uploads) :
  let r := uploadFile prod p file net s in
  res r = Resolved ()
  ∧ ∃ report,
      reports (trace r) = [report]
      ∧ match report with
        | inl image =>
            timers (trace r) = [(3000, file)]
            ∧ validateFile p file = None
            ∧ tasksOf file (st r) ≠ []
            ∧ Forall (λ upload, status upload = Success ∧ progress upload = 100)
                     (tasksOf file (st r))
        | inr m =>
            timers (trace r) = []
            ∧ (validateFile p file = Some m ∧ st r = s
               ∨ validateFile p file = None
                 ∧ tasksOf file (st r) ≠ []
                 ∧ Forall (λ upload, status upload = Error
                                     ∧ Upload.error upload = Some m)
                          (tasksOf file (st r)))
        end.
Proof.
  intros r. subst r.
  destruct (attempt_cases prod p file net s)
    as [(m & Hv & ->)|(Hv & Hres & es & _ & [(image & key & Hr & Ht & Hst)|(m & Hr & Ht & Hst)])].
  - split; [done|]. exists (inr m). split; [done|]. split; [done|]. by left.
  - split; [done|]. exists (inl image). split; [done|]. rewrite Hst. split_and!; try done.
    + apply tasksOf_nonempty. rewrite taskFiles_setSuccess, enqueued_file.
      apply elem_of_app. right. apply list_elem_of_here.
    + eapply Forall_impl; [apply tasksOf_setSuccess|]. by intros upload (? & ? & _).
  - split; [done|]. exists (inr m). split; [done|]. split; [done|]. right.
    rewrite Hst. split_and!; try done.
    + apply tasksOf_nonempty. rewrite taskFiles_setError, enqueued_file.
      apply elem_of_app. right. apply list_elem_of_here.
    + apply tasksOf_setError.
Qed.

(** ** Other files' tasks *)

Lemma othersOf_fmap file (f : UploadProgress → UploadProgress) s :
  (∀ upload, sameFile file upload → sameFile file (f upload)) →
  (∀ upload, ¬ sameFile file upload → f upload = upload) →
  othersOf file (f <$> s) = othersOf file s.
Proof.
  intros Hsame Hother. unfold othersOf.
  induction s as [|upload s IH]; [done|].
  rewrite fmap_cons, !filter_cons.
  destruct (decide (sameFile file upload)) as [Hu|Hu].
  - destruct (decide (¬ sameFile file (f upload))) as [Hf|_]; [by destruct Hf; apply Hsame|].
    destruct (decide (¬ sameFile file upload)); done.
  - rewrite (Hother upload Hu).
    destruct (decide (¬ sameFile file upload)); [by rewrite IH|done].
Qed.

Lemma othersOf_setProgress file pct s :
  othersOf file (setProgress file pct <$> s) = othersOf file s.
Proof.
  apply othersOf_fmap; intros upload Hu; unfold setProgress;
    by destruct (decide (sameFile file upload)).
Qed.

Lemma othersOf_setSuccess file key s :
  othersOf file (setSuccess file key <$> s) = othersOf file s.
Proof.
  apply othersOf_fmap; intros upload Hu; unfold setSuccess;
    by destruct (decide (sameFile file upload)).
Qed.

Lemma othersOf_setError file m s :
  othersOf file (Upload.setError file m <$> s) = othersOf file s.
Proof.
  apply othersOf_fmap; intros upload Hu; unfold Upload.setError;
    by destruct (decide (sameFile file upload)).
Qed.

Lemma othersOf_progressed file es s :
  othersOf file (progressed file es s) = othersOf file s.
Proof.
  unfold progressed. revert s. induction es as [|e es IH]; intros s; [done|].
  simpl. rewrite run_bind.
  unfold onProgress at 1 2 3. destruct (lengthComputable e); simpl.
  - rewrite IH. apply othersOf_setProgress.
  - apply IH.
Qed.

Lemma othersOf_enqueue file s : othersOf file (s ++ [newUpload file]) = othersOf file s.
Proof.
  unfold othersOf. rewrite filter_app.
  rewrite (filter_cons_False _ (newUpload file) []); [by rewrite filter_nil, app_nil_r|].
  intros Hne. by apply Hne.
Qed.

Lemma othersOf_fresh file s : ref file ∉ taskRefs s → othersOf file s = s.
Proof.
  intros Hfresh. apply filter_all. apply Forall_forall. intros upload Hin Hsame.
  apply Hfresh. unfold taskRefs, taskFiles. rewrite <- list_fmap_compose.
  apply list_elem_of_fmap. exists upload. by split.
Qed.

Lemma othersOf_attempt prod p file (net : Net (Xhr prod)) s :
  othersOf file (st (uploadFile prod p file net s)) = othersOf file s.
Proof.
  destruct (attempt_cases prod p file net s)
    as [(m & Hv & ->)|(Hv & Hres & es & _ & [(image & key & _ & _ & ->)|(m & _ & _ & ->)])].
  - done.
  - by rewrite othersOf_setSuccess, othersOf_progressed, othersOf_enqueue.
  - by rewrite othersOf_setError, othersOf_progressed, othersOf_enqueue.
Qed.

(** X8. An attempt touches no task but those of its own file: the tasks of
    the other files come out of it as they went in, in their order. Hence a
    dismissal, or the clean-up timer, after the attempt leaves exactly the
    other files' tasks, and for a file that was not in the queue before it
    gives the queue back as it was. *)
Theorem attempt_leaves_other_tasks_alone prod (p : Props) (file : File)
    (net : Net (Xhr prod)) (s : Uploads) :
  let r := uploadFile prod p file net s in
  othersOf file (st r) = othersOf file s
  ∧ removeUpload file (st r) = MkRun (Resolved ()) (othersOf file s) []
  ∧ onCleanupTimer file (st r) = MkRun (Resolved ()) (othersOf file s) []
  ∧ (ref file ∉ taskRefs s → st (removeUpload file (st r)) = s).
Proof.
  intros r. subst r.
  pose proof (othersOf_attempt prod p file net s) as Hframe.
  unfold removeUpload, onCleanupTimer, modify.
  change (filter (λ upload, ¬ sameFile file upload) (st (uploadFile prod p file net s)))
    with (othersOf file (st (uploadFile prod p file net s))).
  rewrite Hframe. split_and!; try done. simpl. apply othersOf_fresh.
Qed.

(** ** The limit on the queue *)

Lemma length_taskFiles s : length (taskFiles s) = length s.
Proof. apply length_fmap. Qed.

Lemma length_queued p (files : list File) :
  (length (flat_map (queuedFiles p) files) ≤ length files)%nat.
Proof.
  induction files as [|f files IH]; [done|].
  simpl. rewrite length_app. unfold queuedFiles at 1.
  destruct (validateFile p f); simpl; lia.
Qed.

Lemma completions_app t t' : completions (t ++ t') = completions t ++ completions t'.
Proof. apply omap_app. Qed.

Lemma completions_reports t :
  completions t
  = omap (λ report, match report with inl image => Some image | inr _ => None end)
         (reports t).
Proof.
  unfold completions, reports.
  induction t as [|e t IH]; [done|].
  destruct e; simpl; try exact IH. f_equal. exact IH.
Qed.

Lemma attempt_completes_at_most_once prod p file (net : Net (Xhr prod)) s :
  (length (completions (trace (uploadFile prod p file net s))) ≤ 1)%nat.
Proof.
  rewrite completions_reports.
  destruct (attempt_cases prod p file net s)
    as [(m & _ & ->)|(_ & _ & es & _ & [(image & key & -> & _)|(m & -> & _)])];
    simpl; lia.
Qed.

Lemma batch_completes_at_most_its_size prod p (batch : list (File * Net (Xhr prod))) :
  (length (completions (batchTrace prod p batch)) ≤ length batch)%nat.
Proof.
  induction batch as [|x rest IH]; [done|].
  change (batchTrace prod p (x :: rest))
    with ((fileTrace prod p x ++ [EvSleep 500]) ++ batchTrace prod p rest).
  rewrite !completions_app, !length_app.
  change (length (completions [EvSleep 500])) with 0%nat.
  pose proof (attempt_completes_at_most_once prod p x.1 x.2 []) as Hone.
  fold (fileTrace prod p x) in Hone. simpl. lia.
Qed.

(** X9. A run of [handleFiles] confirms no more images than its pre-check
    found room for: the number of [onUploadComplete] calls it makes is at
    most the size of the batch, and at most [maxFiles] less the image count
    and the queue length the handler saw, none when that leaves no room. *)
Theorem batch_confirms_within_the_room prod (p : Props)
    (batch : list (File * Net (Xhr prod))) (s : Uploads) :
  let r := handleFiles prod p batch s in
  (length (completions (trace r)) ≤ length batch)%nat
  ∧ Z.of_nat (length (completions (trace r)))
    ≤ Z.max 0 (maxFiles p - currentImageCount p - Z.of_nat (length s)).
Proof.
  intros r. subst r. rewrite handleFiles_run.
  destruct (decide (overLimit p s (length batch))) as [Hover|Hroom]; simpl; [lia|].
  destruct (uploadEach_facts prod p batch s) as (_ & _ & ->).
  pose proof (batch_completes_at_most_its_size prod p batch) as Hsize.
  unfold overLimit in Hroom. lia.
Qed.

(** ** The PUT of the two transports *)

Lemma puts_afterNegotiation p file url key timeout rejection es out s :
  puts (trace (afterNegotiation p file url key timeout rejection es out s))
  = [(url, type file, file, timeout)].
Proof.
  unfold afterNegotiation. cbn [trace pre].
  destruct (gatewayTrace_silent (confirmRequest p key) out) as (_ & _ & Hconf).
  destruct rejection; simpl; [done|].
  rewrite puts_app, Hconf. by destruct (apiAnswer out).
Qed.

(** X10. The direct-to-storage transport hands a file to the XHR only after
    the negotiation resolved with a truthy [upload_url] and a truthy [key]:
    at most one PUT per attempt, of this file, to that URL, with the file's
    type as content type and the two-minute timeout. *)
Theorem s3_put_needs_url_and_key (p : Props) (file : File)
    (net : Net XhrS3) (s : Uploads) :
  let r := uploadFileS3 p file net s in
  puts (trace r) = []
  ∨ ∃ v, validateFile p file = None
         ∧ apiAnswer (negotiate net) = Resolved v
         ∧ truthy_opt (get_field "upload_url" v) = true
         ∧ truthy_opt (get_field "key" v) = true
         ∧ puts (trace r)
           = [(get_field "upload_url" v, type file, file, Some 120000)].
Proof.
  intros r. subst r. rewrite uploadFileS3_run. unfold attemptS3.
  destruct (validateFile p file) as [m|]; [by left|].
  destruct (gatewayTrace_silent (negotiateS3 p file) (negotiate net)) as (_ & _ & Hneg).
  cbn [trace pre]. rewrite puts_app, Hneg.
  destruct (apiAnswer (negotiate net)) as [v|m]; [|by left].
  destruct v; try (by left);
    (destruct (negb _ || negb _) eqn:Hguard; [by left|]);
    apply orb_false_elim in Hguard as [Hurl%negb_false_iff Hkey%negb_false_iff];
    right; eexists; (split; [done|]); (split; [done|]); (split; [exact Hurl|]);
    (split; [exact Hkey|]); apply puts_afterNegotiation.
Qed.

(** X11. The local transport has no such guard: once a valid file's
    negotiation resolved with anything but [null], the XHR is opened on
    whatever the answer holds under [uploadUrl], be it nothing at all. If
    the executor throws there (a URL that does not parse), nothing is sent
    and the exception is what the attempt reports; in every other case the
    file is handed to the XHR: one PUT to that URL, with the file's type
    and no timeout. *)
Theorem local_put_whatever_the_answer (p : Props) (file : File)
    (net : Net XhrLocal) (s : Uploads) (v : Json) :
  validateFile p file = None →
  apiAnswer (negotiate net) = Resolved v → v ≠ JNull →
  let r := uploadFileLocal p file net s in
  match xhr net with
  | LocalThrows reason =>
      puts (trace r) = [] ∧ reports (trace r) = [inr (MsgText reason)]
  | _ => puts (trace r) = [(get_field "uploadUrl" v, type file, file, None)]
  end.
Proof.
  intros Hvalid Hanswer Hnull r. subst r.
  rewrite uploadFileLocal_run. unfold attemptLocal.
  rewrite Hvalid, Hanswer.
  destruct (gatewayTrace_silent (negotiateLocal p file) (negotiate net))
    as (Hsilent & _ & Hneg).
  cbn [trace pre]. rewrite puts_app, reports_app, Hneg, Hsilent.
  unfold afterNegotiationLocal.
  destruct v; try done; (destruct (xhr net); [apply puts_afterNegotiation..|done]).
Qed.

Lemma local_put_whatever_the_answer_witness :
  puts (trace (uploadFileLocal (propsWith 10 0) ring
                 {| negotiate := accepted; progressEvents := [];
                    xhr := LocalError; confirm := refused |} []))
  = [(None, "image/png", ring, None)].
Proof.
  refine (eq_trans
    (local_put_whatever_the_answer (propsWith 10 0) ring
       {| negotiate := accepted; progressEvents := [];
          xhr := LocalError; confirm := refused |} [] (JObj ∅) _ _ _) _).
  - reflexivity.
  - reflexivity.
  - discriminate.
  - by vm_compute.
Defined.

(** ** The progress bar *)

Lemma percent_bounds e :
  0 < total e → 0 ≤ loaded e ≤ total e → 0 ≤ percent e ≤ 100.
Proof.
  intros Htotal Hloaded. unfold percent. split.
  - apply Z.div_pos; lia.
  - apply Z.lt_succ_r. apply Z.div_lt_upper_bound; lia.
Qed.

Lemma inBounds_progressed file es s :
  Forall wellFormed es → Forall inBounds s → Forall inBounds (progressed file es s).
Proof.
  unfold progressed. intros Hes. revert s.
  induction Hes as [|e es He _ IH]; intros s Hs; [done|].
  simpl. rewrite run_bind. unfold onProgress at 1 2 3.
  destruct (lengthComputable e) eqn:Hlc; simpl; [|by apply IH].
  apply IH. apply Forall_fmap. eapply Forall_impl; [exact Hs|].
  intros upload Hu. unfold compose, setProgress. destruct (decide (sameFile file upload)); [|done].
  unfold inBounds. simpl. destruct (He Hlc). by apply percent_bounds.
Qed.

(** X12. The progress bar stays between 0 and 100: with progress events as
    a browser fires them (a computable length has a positive total and a
    loaded part within it), an attempt over a queue whose tasks are within
    bounds leaves every task within bounds, the new one included. *)
Theorem progress_stays_in_bounds prod (p : Props) (file : File)
    (net : Net (Xhr prod)) (s : Uploads) :
  Forall wellFormed (progressEvents net) → Forall inBounds s →
  Forall inBounds (st (uploadFile prod p file net s)).
Proof.
  intros Hes Hs.
  assert (Hq : ∀ es, es = [] ∨ es = progressEvents net →
            Forall inBounds (progressed file es (s ++ [newUpload file]))).
  { intros es Hcase. apply inBounds_progressed.
    - by destruct Hcase as [->| ->].
    - apply Forall_app. split; [done|]. constructor; [|done]. unfold inBounds. simpl. lia. }
  destruct (attempt_cases prod p file net s)
    as [(m & Hv & ->)|(Hv & Hres & es & Hcase & [(image & key & _ & _ & ->)|(m & _ & _ & ->)])].
  - done.
  - apply Forall_fmap. eapply Forall_impl; [exact (Hq es Hcase)|].
    intros upload Hu. unfold compose, setSuccess. destruct (decide (sameFile file upload)); [|done].
    unfold inBounds. simpl. lia.
  - apply Forall_fmap. eapply Forall_impl; [exact (Hq es Hcase)|].
    intros upload Hu. unfold compose, Upload.setError. by destruct (decide (sameFile file upload)).
Qed.

Lemma progress_stays_in_bounds_witness :
  Forall inBounds (st (uploadFile true (propsWith 10 0) ring (storageOk "k1" "img-1") [])).
Proof.
  apply (progress_stays_in_bounds true (propsWith 10 0) ring (storageOk "k1" "img-1") []).
  - constructor; [|constructor]. intros _. simpl. lia.
  - constructor.
Defined.

(** ** The earlier variant of the upload queue *)

Lemma forEachStart_facts p files s :
  let r := Legacy.forEachStart p files s in
  res r = Resolved ()
  ∧ taskFiles (st r) = taskFiles s ++ flat_map (queuedFiles p) files
  ∧ reports (trace r) = inr <$> omap (validateFile p) files.
Proof.
  revert s. induction files as [|f files IH]; intros s.
  { simpl. by rewrite app_nil_r. }
  cbv zeta. cbn [Legacy.forEachStart]. rewrite run_bind.
  unfold Legacy.uploadFileStart, queuedFiles at 1. cbn [omap].
  destruct (validateFile p f) as [m|] eqn:Hv; simpl; rewrite ?Hv.
  - destruct (IH s) as (-> & -> & ->). done.
  - destruct (IH (s ++ [newUpload f])) as (-> & -> & ->).
    rewrite taskFiles_app, <- app_assoc. done.
Qed.

Lemma slice0_in_range {A} (k : Z) (l : list A) :
  0 ≤ k → Legacy.slice0 k l = take (Z.to_nat k) l.
Proof.
  intros Hk. unfold Legacy.slice0.
  destruct (Z.ltb_spec k 0); [lia|].
  destruct (Z.min_spec k (Z.of_nat (length l))) as [[_ ->]|[Hle ->]]; [done|].
  rewrite Nat2Z.id. rewrite !take_ge; [done|lia..].
Qed.

(** X13. The earlier [handleFiles], on a queue within [maxFiles]: it keeps
    the first files of the selection, as many as the queue has slots left,
    and drops the rest without a word; of those kept, the valid ones get a
    task and the others are reported, one error each, all before any request
    settles. The queue stays within [maxFiles]; the images the product
    already has play no part. *)
Theorem legacy_handleFiles_fills_remaining_slots (p : Props)
    (fileArray : list File) (s : Uploads) :
  Z.of_nat (length s) ≤ maxFiles p →
  let r := Legacy.handleFiles p fileArray s in
  let kept := take (Z.to_nat (maxFiles p - Z.of_nat (length s))) fileArray in
  res r = Resolved ()
  ∧ taskFiles (st r) = taskFiles s ++ flat_map (queuedFiles p) kept
  ∧ reports (trace r) = inr <$> omap (validateFile p) kept
  ∧ Z.of_nat (length (st r)) ≤ maxFiles p.
Proof.
  intros Hroom r kept. subst r kept. unfold Legacy.handleFiles.
  rewrite run_gets. unfold Legacy.filesToUpload.
  rewrite slice0_in_range by lia.
  set (kept := take _ fileArray).
  destruct (forEachStart_facts p kept s) as (Hres & Hfiles & Hreports).
  split_and!; try done.
  apply (f_equal length) in Hfiles.
  rewrite length_app, !length_taskFiles in Hfiles.
  pose proof (length_queued p kept) as Hq.
  assert (Hk : (length kept ≤ Z.to_nat (maxFiles p - Z.of_nat (length s)))%nat).
  { unfold kept. rewrite length_take. lia. }
  lia.
Qed.

Lemma legacy_handleFiles_fills_remaining_slots_witness :
  let r := Legacy.handleFiles (propsWith 2 5) [sketch; clasp; pendant] [newUpload ring] in
  res r = Resolved ()
  ∧ taskFiles (st r) = taskFiles [newUpload ring] ++ flat_map (queuedFiles (propsWith 2 5)) [sketch]
  ∧ reports (trace r) = inr <$> omap (validateFile (propsWith 2 5)) [sketch]
  ∧ Z.of_nat (length (st r)) ≤ 2.
Proof.
  apply (legacy_handleFiles_fills_remaining_slots (propsWith 2 5)
           [sketch; clasp; pendant] [newUpload ring]).
  simpl. lia.
Defined.

(** ** Sessions of the gallery *)

Lemma moved_perm (draft : list (option ProductImage)) (fromIndex toIndex : nat) :
  (fromIndex < length draft)%nat → (toIndex < length draft)%nat →
  moved draft (Z.of_nat fromIndex) (Z.of_nat toIndex) ≡ₚ draft.
Proof.
  intros Hfrom Hto.
  destruct (lookup_lt_is_Some_2 _ _ Hfrom) as [entry Hentry].
  rewrite (moved_in_range _ _ _ entry Hentry Hto).
  rewrite <- Permutation_middle, take_drop.
  symmetry. by apply delete_Permutation.
Qed.

(** Putting an entry back where it was taken from. *)
Lemma put_back {A} (l : list A) (i : nat) x :
  l !! i = Some x → take i (delete i l) ++ x :: drop i (delete i l) = l.
Proof.
  intros Hx. pose proof (lookup_lt_Some _ _ _ Hx) as Hlt.
  rewrite delete_take_drop.
  rewrite take_app_le by (rewrite length_take; lia).
  rewrite take_take, Nat.min_id.
  rewrite drop_app_ge by (rewrite length_take; lia).
  rewrite length_take, Nat.min_l, Nat.sub_diag by lia. simpl.
  by apply take_drop_middle.
Qed.

Lemma moved_back (draft : list (option ProductImage)) (fromIndex toIndex : nat) :
  (fromIndex < length draft)%nat → (toIndex < length draft)%nat →
  moved (moved draft (Z.of_nat fromIndex) (Z.of_nat toIndex))
        (Z.of_nat toIndex) (Z.of_nat fromIndex) = draft.
Proof.
  intros Hfrom Hto.
  destruct (lookup_lt_is_Some_2 _ _ Hfrom) as [entry Hentry].
  rewrite (moved_in_range _ _ _ entry Hentry Hto).
  set (others := delete fromIndex draft).
  assert (Hlen : length others = pred (length draft)).
  { unfold others. rewrite length_delete by eauto. lia. }
  assert (Htake : length (take toIndex others) = toIndex).
  { rewrite length_take. lia. }
  assert (Hat : (take toIndex others ++ entry :: drop toIndex others) !! toIndex
                = Some entry).
  { rewrite lookup_app_r by lia. by rewrite Htake, Nat.sub_diag. }
  rewrite (moved_in_range _ _ _ entry Hat).
  2: { rewrite length_app, Htake. simpl. rewrite length_drop. lia. }
  assert (Hdel : delete toIndex (take toIndex others ++ entry :: drop toIndex others)
                 = others).
  { rewrite <- Htake at 1. by rewrite delete_middle, take_drop. }
  rewrite Hdel. unfold others. by apply put_back.
Qed.

Lemma state_eta (s : State) : setReorderImages (reorderImages s) s = s.
Proof. by destruct s. Qed.

(** X14. Dragging a tile back undoes the drag: in reorder mode, a drop
    that moved the tile at one position of the draft onto another, followed
    by the drop that moves the tile now at that position onto the first,
    leaves the whole state as it was. *)
Theorem move_back_restores_draft (s : State) (fromIndex toIndex : nat) :
  isReordering s = true →
  (fromIndex < length (reorderImages s))%nat →
  (toIndex < length (reorderImages s))%nat →
  st (onDrop (Some (Z.of_nat toIndex)) fromIndex
        (st (onDrop (Some (Z.of_nat fromIndex)) toIndex s))) = s.
Proof.
  intros Hmode Hfrom Hto.
  rewrite (onDrop_run _ _ s), Hmode. cbn [st].
  rewrite onDrop_run. cbn [st isReordering setReorderImages reorderImages]. rewrite Hmode.
  change (default 0 (Some (Z.of_nat fromIndex))) with (Z.of_nat fromIndex).
  change (default 0 (Some (Z.of_nat toIndex))) with (Z.of_nat toIndex).
  rewrite moved_back by done.
  by destruct s.
Qed.

Lemma move_back_restores_draft_witness :
  let s := st (handleStartReorder (viewing fourImages)) in
  st (onDrop (Some 3) 0 (st (onDrop (Some 0) 3 s))) = s.
Proof.
  intros s.
  apply (move_back_restores_draft s 0 3 eq_refl); vm_compute; lia.
Defined.

Lemma dropAll_run ds s :
  isReordering s = true →
  Forall (λ d, (d.1 < length (reorderImages s))%nat
               ∧ (d.2 < length (reorderImages s))%nat) ds →
  ∃ draft, dropAll ds s = MkRun (Resolved ()) (setReorderImages draft s) []
           ∧ draft ≡ₚ reorderImages s.
Proof.
  intros Hmode Hds. revert s Hmode Hds.
  induction ds as [|[fromIndex toIndex] ds IH]; intros s Hmode Hds.
  { exists (reorderImages s). by rewrite state_eta. }
  apply Forall_cons in Hds as [[Hfrom Hto] Hds]. simpl in Hfrom, Hto.
  pose proof (moved_perm _ _ _ Hfrom Hto) as Hperm.
  cbn [dropAll]. rewrite run_bind, onDrop_run, Hmode. cbn [res st trace].
  change (default 0 (Some (Z.of_nat fromIndex))) with (Z.of_nat fromIndex).
  set (s1 := setReorderImages _ s).
  destruct (IH s1) as (draft & -> & Hdraft).
  - done.
  - subst s1. cbn [reorderImages setReorderImages].
    by rewrite (Permutation_length Hperm).
  - exists draft. split; [done|]. subst s1. cbn [reorderImages setReorderImages] in Hdraft.
    by rewrite Hdraft.
Qed.

(** A rearrangement of a list without holes has no holes. *)
Lemma perm_defined {A} (d : list (option A)) (l : list A) :
  d ≡ₚ Some <$> l → ∃ l', d = Some <$> l' ∧ l' ≡ₚ l.
Proof.
  intros Hperm.
  assert (Hid : ∀ l0 : list A, omap (λ entry : option A, entry) (Some <$> l0) = l0).
  { induction l0 as [|x l0 IH]; [done|]. simpl. f_equal. exact IH. }
  exists (omap (λ entry, entry) d). split.
  - assert (Hall : Forall is_Some d).
    { rewrite Hperm. apply Forall_fmap. apply Forall_true. intros x. by exists x. }
    clear Hperm. induction Hall as [|entry d [x ->] _ IH]; [done|].
    simpl. f_equal. exact IH.
  - etransitivity; [apply omap_Permutation, Hperm|]. by rewrite Hid.
Qed.

(** X15. A reorder session loses and invents nothing: entering reorder
    mode, dropping tiles dragged within the draft any number of times, and
    committing with a request that resolves sends the ids of a
    rearrangement of the gallery and hands the owner that rearrangement,
    numbered 1 to N by position, every image otherwise as it was. *)
Theorem reorder_session_keeps_every_image (productId : string)
    (ds : list (nat * nat)) (out : Http.FetchOutcome) (s : State) (v : Json) :
  Forall (λ d, (d.1 < length (images s))%nat ∧ (d.2 < length (images s))%nat) ds →
  apiAnswer out = Resolved v →
  let r := reorderSession productId ds out s in
  res r = Resolved ()
  ∧ isReordering (st r) = false
  ∧ ∃ draft,
      draft ≡ₚ images s
      ∧ images (st r) = renumbered draft
      ∧ withDisplayOrder 0 <$> images (st r) = withDisplayOrder 0 <$> draft
      ∧ display_order <$> images (st r) = seqZ 1 (Z.of_nat (length (images s)))
      ∧ trace r = gatewayTrace (reorderRequest productId (id <$> draft)) out
                    ++ [EvImagesChange (images (st r))].
Proof.
  intros Hds Hout r. subst r. unfold reorderSession.
  set (s0 := setIsReordering true (setReorderImages (Some <$> images s) s)).
  assert (Hstart : handleStartReorder s = MkRun (Resolved ()) s0 []).
  { unfold handleStartReorder. by rewrite run_gets, !run_modify. }
  rewrite run_bind, Hstart. cbn [res st trace].
  destruct (dropAll_run ds s0) as (d & Hdrops & Hperm).
  - done.
  - subst s0. cbn [reorderImages setReorderImages setIsReordering].
    by rewrite length_fmap.
  - rewrite run_bind, Hdrops. cbn [res st trace].
    subst s0. cbn [reorderImages setReorderImages setIsReordering] in Hperm.
    destruct (perm_defined d (images s) Hperm) as (draft & -> & Hdraft).
    rewrite (handleSaveReorder_run _ _ _ draft) by done.
    rewrite Hout. cbn [res st trace images isReordering setIsReordering setImages].
    destruct (renumbered_spec draft) as (_ & Horder & _ & Hrest).
    split; [done|]. split; [done|]. exists draft. split_and!; try done.
    by rewrite Horder, (Permutation_length Hdraft).
Qed.

Lemma reorder_session_keeps_every_image_witness :
  let r := reorderSession "p1" [(0, 2); (3, 1)]%nat accepted (viewing fourImages) in
  res r = Resolved ()
  ∧ isReordering (st r) = false
  ∧ ∃ draft,
      draft ≡ₚ fourImages
      ∧ images (st r) = renumbered draft
      ∧ withDisplayOrder 0 <$> images (st r) = withDisplayOrder 0 <$> draft
      ∧ display_order <$> images (st r) = seqZ 1 4
      ∧ trace r = gatewayTrace (reorderRequest "p1" (id <$> draft)) accepted
                    ++ [EvImagesChange (images (st r))].
Proof.
  apply (reorder_session_keeps_every_image "p1" [(0, 2); (3, 1)]%nat accepted
           (viewing fourImages) (JObj ∅)).
  - repeat constructor; simpl; lia.
  - reflexivity.
Defined.

Lemma moved_from_outside (draft : list (option ProductImage)) (fromIndex : Z)
    (toIndex : nat) :
  Z.of_nat (length draft) ≤ fromIndex → (toIndex ≤ length draft)%nat →
  moved draft fromIndex (Z.of_nat toIndex)
  = take toIndex draft ++ None :: drop toIndex draft.
Proof.
  intros Hfrom Hto. unfold moved, spliceOut.
  assert (Hstart : spliceStart draft fromIndex = length draft).
  { unfold spliceStart. destruct (Z.ltb_spec fromIndex 0); lia. }
  rewrite Hstart, take_ge, drop_ge, app_nil_r by lia.
  rewrite lookup_ge_None_2 by lia. simpl.
  unfold spliceIn. by rewrite spliceStart_in_range.
Qed.

(** X16. A drop whose source position lies beyond the draft (the dragged
    text is read with [parseInt] and not checked) takes nothing out and
    puts [undefined] in at the drop position: the draft grows by one entry,
    a hole, the images around it keeping their order and the owner's
    sequence untouched. The render that follows reads [id] of every entry
    of the draft for the keys of the tiles, and throws on the hole. *)
Theorem drop_from_outside_leaves_a_hole (s : State) (fromIndex : Z) (toIndex : nat) :
  isReordering s = true →
  Z.of_nat (length (reorderImages s)) ≤ fromIndex →
  (toIndex < length (reorderImages s))%nat →
  let dropped := st (onDrop (Some fromIndex) toIndex s) in
  reorderImages dropped
  = take toIndex (reorderImages s) ++ None :: drop toIndex (reorderImages s)
  ∧ length (reorderImages dropped) = S (length (reorderImages s))
  ∧ images dropped = images s
  ∧ isReordering dropped = true
  ∧ tileKeys dropped = Rejected MsgTypeError.
Proof.
  intros Hmode Hfrom Hto dropped. subst dropped.
  rewrite onDrop_run, Hmode. cbn [st].
  change (default 0 (Some fromIndex)) with fromIndex.
  unfold tileKeys, displayImages.
  cbn [reorderImages setReorderImages images isReordering]. rewrite Hmode.
  rewrite moved_from_outside by lia.
  split_and!; try done.
  - rewrite length_app, length_take. simpl. rewrite length_drop. lia.
  - destruct (mapM _ _) as [imgs|] eqn:Hm; [|done].
    apply mapM_Some in Hm. exfalso.
    assert (Hhole : (take toIndex (reorderImages s) ++ None :: drop toIndex (reorderImages s))
                      !! toIndex = Some None).
    { rewrite lookup_app_r by (rewrite length_take; lia).
      rewrite length_take, Nat.min_l by lia. by rewrite Nat.sub_diag. }
    destruct (Forall2_lookup_l _ _ _ _ _ Hm Hhole) as (img & _ & [=]).
Qed.

Lemma drop_from_outside_leaves_a_hole_witness :
  let s := st (handleStartReorder (viewing fourImages)) in
  let dropped := st (onDrop (Some 9) 1 s) in
  reorderImages dropped
  = take 1 (reorderImages s) ++ None :: drop 1 (reorderImages s)
  ∧ length (reorderImages dropped) = S (length (reorderImages s))
  ∧ images dropped = images s
  ∧ isReordering dropped = true
  ∧ tileKeys dropped = Rejected MsgTypeError.
Proof.
  intros s.
  apply (drop_from_outside_leaves_a_hole s 9 1 eq_refl);
    vm_compute; first [lia | discriminate].
Defined.

(** ** Answers without a JSON body *)

Lemma apiAnswer_bodyless (r : Http.Response) :
  Gateway.isJson r = false ∨ Http.bodyJson r = None →
  ∃ m, apiAnswer (Http.Responded r) = Rejected m.
Proof.
  intros Hbodyless. unfold apiAnswer.
  destruct (res (Gateway.apiRequest listImages (Http.Responded r) ())) as [v|m] eqn:Hres;
    [|by exists m].
  apply apiRequest_resolved in Hres as (r' & [= <-] & _ & Hjson & Hbody).
  destruct Hbodyless; congruence.
Qed.

(** X17. The gallery takes a success without a JSON body for a failure.
    When the backend answers a promotion, a deletion or a reorder with a
    response that has no JSON content type or no parsable body, be it a
    plain 204, the request was sent and may have done its work, yet the
    gateway throws: the handler never calls [onImagesChange], the sequence
    stays as it was, and the handler's own failure message is set as the
    modal's error and shown. *)
Theorem gallery_takes_bodyless_success_for_failure (productId imageId : string)
    (captured : list ProductImage) (r : Http.Response) (s : State)
    (draft : list ProductImage) :
  Gateway.isJson r = false ∨ Http.bodyJson r = None →
  reorderImages s = Some <$> draft →
  let out := Http.Responded r in
  let promotion := handleSetPrimary productId imageId out s in
  let deletion := handleDelete productId imageId captured out s in
  let commit := handleSaveReorder productId out s in
  (res promotion = Resolved ()
   ∧ trace promotion = gatewayTrace (promoteRequest productId imageId) out
   ∧ images (st promotion) = images s
   ∧ error (st promotion) = Some (MsgText "Failed to set primary image")
   ∧ errorShown (st promotion) = true)
  ∧ (res deletion = Resolved ()
     ∧ trace deletion = gatewayTrace (deleteRequest productId imageId) out
     ∧ images (st deletion) = images s
     ∧ error (st deletion) = Some (MsgText "Failed to delete image")
     ∧ errorShown (st deletion) = true)
  ∧ (res commit = Resolved ()
     ∧ trace commit = gatewayTrace (reorderRequest productId (id <$> draft)) out
     ∧ images (st commit) = images s
     ∧ error (st commit) = Some (MsgText "Failed to reorder images")
     ∧ errorShown (st commit) = true).
Proof.
  intros Hbodyless Hdraft out promotion deletion commit.
  subst out promotion deletion commit.
  destruct (apiAnswer_bodyless r Hbodyless) as [m Hm].
  rewrite handleSetPrimary_run, handleDelete_run, (handleSaveReorder_run _ _ _ draft Hdraft).
  by rewrite Hm.
Qed.

Lemma gallery_takes_bodyless_success_for_failure_witness :
  let out := Http.Responded (emptyResponse 204 "No Content") in
  let s := st (handleStartReorder (viewing fourImages)) in
  images (st (handleSetPrimary "p1" "b" out s)) = fourImages
  ∧ images (st (handleDelete "p1" "b" fourImages out s)) = fourImages
  ∧ images (st (handleSaveReorder "p1" out s)) = fourImages.
Proof.
  destruct (gallery_takes_bodyless_success_for_failure "p1" "b" fourImages
              (emptyResponse 204 "No Content")
              (st (handleStartReorder (viewing fourImages))) fourImages)
    as ((_ & _ & Hp & _) & (_ & _ & Hd & _) & (_ & _ & Hc & _)).
  - by left.
  - reflexivity.
  - split_and!; [exact Hp | exact Hd | exact Hc].
Defined.

(** ** The modal *)

(** X18. [loadImages] always settles and never leaves the modal loading.
    When the request resolves, the list shown is the answer if it is an
    array and the empty list if it is anything else, and the error of an
    earlier failure is cleared; when it is thrown, the list is emptied and
    the load error is shown. Either way the owner is handed the very list
    the modal now shows, so a failed load empties the owner's list too. *)
Theorem loadImages_settles (productId : string) (out : Http.FetchOutcome)
    (s : Modal.State) :
  let r := Modal.loadImages productId out s in
  res r = Resolved ()
  ∧ trace r = gatewayTrace (loadRequest productId) out
  ∧ Modal.isLoading (st r) = false
  ∧ Modal.productImages (st r) = Modal.images (st r)
  ∧ Modal.activeTab (st r) = Modal.activeTab s
  ∧ match apiAnswer out with
    | Resolved imagesData =>
        Modal.images (st r) = match imagesData with JArr items => items | _ => [] end
        ∧ Modal.error (st r) = None
    | Rejected _ =>
        Modal.images (st r) = []
        ∧ Modal.error (st r) = Some (MsgText "Failed to load images")
    end.
Proof.
  intros r. subst r. unfold Modal.loadImages.
  rewrite !run_modify, run_bind, run_try, run_apiRequest.
  fold (loadRequest productId).
  destruct (apiAnswer out) as [imagesData|m].
  - rewrite catching_pre, !run_modify. simpl. rewrite !app_nil_r.
    by split_and!.
  - rewrite catching_rejected, !run_modify. simpl. by rewrite !app_nil_r.
Qed.

Lemma last_cons_or {A} (x : A) (l : list A) :
  last (x :: l) = Some (default x (last l)).
Proof.
  revert x. induction l as [|y l IH]; intros x; [done|].
  rewrite last_cons_cons, IH. by destruct l.
Qed.

Lemma handleUploadComplete_run captured img s :
  Modal.handleUploadComplete captured img s
  = MkRun (Resolved ())
      (Modal.setActiveTab Modal.GalleryTab
         (Modal.setProductImages (captured ++ [img])
            (Modal.setImages (captured ++ [img]) s))) [].
Proof. done. Qed.

Lemma handleUploadError_run m s :
  Modal.handleUploadError m s = MkRun (Resolved ()) (Modal.setError (Some m) s) [].
Proof. done. Qed.

Lemma deliver_run captured t s :
  let r := Modal.deliver captured t s in
  res r = Resolved () ∧ trace r = []
  ∧ Modal.images (st r)
    = from_option (λ image, captured ++ [image]) (Modal.images s) (last (completions t))
  ∧ Modal.productImages (st r)
    = from_option (λ image, captured ++ [image]) (Modal.productImages s)
        (last (completions t))
  ∧ Modal.activeTab (st r)
    = match last (completions t) with
      | Some _ => Modal.GalleryTab
      | None => Modal.activeTab s
      end
  ∧ Modal.error (st r)
    = from_option Some (Modal.error s) (last (omap errorOf t))
  ∧ Modal.isLoading (st r) = Modal.isLoading s.
Proof.
  revert s. induction t as [|e t IH]; intros s; [done|].
  assert (Hskip : completionOf e = None → errorOf e = None →
            Modal.deliver captured (e :: t) s = Modal.deliver captured t s).
  { by destruct e. }
  destruct e as [req| |url ct f timeout|f fulfilled|img|m|imgs|ms f|ms];
    try (cbv zeta; rewrite Hskip by done; exact (IH s)).
  - cbv zeta. cbn [Modal.deliver].
    rewrite run_bind, handleUploadComplete_run. cbn [res st trace app].
    destruct (IH (Modal.setActiveTab Modal.GalleryTab
                    (Modal.setProductImages (captured ++ [img])
                       (Modal.setImages (captured ++ [img]) s))))
      as (-> & -> & -> & -> & -> & -> & ->).
    unfold completions. cbn [omap list_omap completionOf errorOf].
    fold (completions t). rewrite last_cons_or.
    destruct (last (completions t)); done.
  - cbv zeta. cbn [Modal.deliver].
    rewrite run_bind, handleUploadError_run. cbn [res st trace app].
    destruct (IH (Modal.setError (Some m) s)) as (-> & -> & -> & -> & -> & -> & ->).
    cbn [omap list_omap completionOf errorOf]. rewrite last_cons_or.
    destruct (last (omap errorOf t)); done.
Qed.

(** X19. The uploads of one batch all report to the [handleUploadComplete]
    of one render, which appends to the list that render saw. So whatever
    the attempts of the batch report, after the last of them the modal (and
    with it the owner) holds that list followed by the image confirmed
    last, and nothing of the images confirmed before it; it shows the
    gallery tab; and the error is the one reported last, if any was. *)
Theorem batch_completions_keep_only_the_last prod (p : Props)
    (batch : list (File * Net (Xhr prod))) (s0 : Uploads)
    (captured : list Json) (s : Modal.State) :
  let t := trace (handleFiles prod p batch s0) in
  let r := Modal.deliver captured t s in
  res r = Resolved ()
  ∧ Modal.images (st r)
    = from_option (λ image, captured ++ [image]) (Modal.images s) (last (completions t))
  ∧ Modal.productImages (st r)
    = from_option (λ image, captured ++ [image]) (Modal.productImages s)
        (last (completions t))
  ∧ Modal.activeTab (st r)
    = match last (completions t) with
      | Some _ => Modal.GalleryTab
      | None => Modal.activeTab s
      end
  ∧ Modal.error (st r)
    = from_option Some (Modal.error s) (last (omap errorOf t))
  ∧ (length (Modal.images (st r)) ≤ S (length captured) ∨ completions t = [])%nat.
Proof.
  intros t r. subst r.
  destruct (deliver_run captured t s) as (Hres & _ & Himages & Howner & Htab & Herror & _).
  split_and!; try done.
  rewrite Himages. destruct (completions t) as [|img rest _] using rev_ind; [by right|].
  left. rewrite last_snoc. simpl. rewrite length_app. simpl. lia.
Qed.

(** Two files uploaded in one batch from an empty modal: both are stored,
    and the modal ends up listing one image. *)
Example two_uploads_one_listed :
  let t := trace (handleFiles true (propsWith 10 0)
                    [(ring, storageOk "k1" "img-1"); (clasp, storageOk "k2" "img-2")] []) in
  completions t = [stored "img-1"; stored "img-2"]
  ∧ Modal.images (st (Modal.deliver [] t (uploading []))) = [stored "img-2"].
Proof. split; by vm_compute. Qed.
